(** * cda2_tool: cross drive analysis over a relational store

    A shallow embedding of [src/python/cda2_tool.py].  The program keeps four
    SQL tables behind one connection and talks to them through SQL text; the
    embedding keeps each table as the list of its rows in insertion (rowid)
    order and writes every statement out as the list operation it denotes.
    Functions that go through the connection become computations in a state
    and exception monad over the store; [print] appends to the [stdout]
    component of the store.

    Model boundary.  Python integers are unbounded and SQLite integers are
    64-bit; the embedding uses [Z] and writes out the two places where the
    difference shows: a count that does not fit is refused when it is bound
    to the INSERT of [ingest], and [sum()] gives up when it overflows.  The
    random rowid chosen when the largest rowid is [2^63-1] is left out.
    Python floats are IEEE-754 binary64, which is exactly Rocq's primitive
    [float].  Lines are printed as structured records (the arguments of the
    format string), not as formatted text.  SQL leaves the order of rows of
    an unordered SELECT open; the embedding returns them in table order,
    except in [list_drives], where the engine reads the index on the drive
    names.  The groups of the rebuild are taken in the order of their first
    row; an engine that emits them in another order hands out other values
    of [id], a column the program never reads.  Feature texts are strings,
    whether the program passes [bytes] (from the reader) or [str] (in
    [test]).  The columns [drivecount] and [featurecount], which the schema
    lets be NULL, are only ever written by the rebuild and are integers
    here.  A transaction that ends in an exception leaves no trace: a
    computation that raises returns no store. *)

From Stdlib Require Import ZArith List String Ascii Bool Lia Sorted Permutation Floats Uint63.
Import ListNotations.
Local Open Scope string_scope.
Local Open Scope list_scope.
Local Open Scope Z_scope.

(** ** Exceptions and the store monad *)

Inductive exn : Type :=
| NameError (name : string)
| TypeError (msg : string)
| OperationalError (msg : string)
| IntegrityError (msg : string)
| OverflowError (msg : string)
| AssertionError.

Inductive result (A : Type) : Type :=
| Ok (a : A)
| Raise (e : exn).
Arguments Ok {A} a.
Arguments Raise {A} e.

(** ** Rows of the four tables (the columns of [schema]) *)

Record drive_row := mk_drive
  { d_driveid : Z; d_drivename : string; d_ingested : option string }.

Record feature_row := mk_feature
  { f_featureid : Z; f_feature : string }.

Record count_row := mk_count
  { c_driveid : Z; c_feature_type : Z; c_featureid : Z; c_count : Z }.

Record freq_row := mk_freq
  { r_id : Z; r_feature_type : Z; r_featureid : Z;
    r_drivecount : Z; r_featurecount : Z }.

(** What the program prints, one constructor per [print] call site. *)
Inductive out_line : Type :=
| PrintText (s : string)
| PrintListed (rowid : Z) (drivename : string)
| PrintIngesting (drivename : string) (driveid : Z)
| PrintImported (driveid : Z)
| PrintLine (drivecount featureid : Z) (feature : string)
| PrintAlso (driveid : Z)
| PrintDrive (driveid : Z) (drivename : string)
| PrintCorrelation (coef : float)
| PrintContrib (weight : float) (feature : string)
| PrintReportFor (driveid : Z) (drivename : string).

Record store := mk_store
  { drives : list drive_row;
    features : list feature_row;
    feature_drive_counts : list count_row;
    feature_frequencies : list freq_row;
    stdout : list out_line }.

Definition empty_store : store := mk_store [] [] [] [] [].

Definition M (A : Type) : Type := store -> result (A * store).

Definition ret {A} (a : A) : M A := fun s => Ok (a, s).
Definition raise {A} (e : exn) : M A := fun _ => Raise e.
Definition bind {A B} (m : M A) (k : A -> M B) : M B :=
  fun s => match m s with
           | Ok (a, s') => k a s'
           | Raise e => Raise e
           end.
Definition get : M store := fun s => Ok (s, s).
Definition put (s : store) : M unit := fun _ => Ok (tt, s).

Notation "x <- m ;; k" := (bind m (fun x => k))
  (at level 61, m at next level, right associativity).
Notation "m ;;; k" := (bind m (fun _ => k))
  (at level 61, right associativity).

Definition print (l : out_line) : M unit :=
  fun s => Ok (tt, mk_store (drives s) (features s) (feature_drive_counts s)
                            (feature_frequencies s) (stdout s ++ [l])).

(** [for x in xs: body x] *)
Fixpoint for_each {A} (xs : list A) (body : A -> M unit) : M unit :=
  match xs with
  | [] => ret tt
  | x :: xs' => body x ;;; for_each xs' body
  end.

(** The results of [f] on each element, threaded left to right. *)
Fixpoint map_M {A B} (f : A -> M B) (xs : list A) : M (list B) :=
  match xs with
  | [] => ret []
  | x :: xs' => y <- f x ;; ys <- map_M f xs' ;; ret (y :: ys)
  end.

(** ** Constants of the module *)

Definition SEARCH_TYPE : Z := 1.
Definition EMAIL_TYPE : Z := 2.
Definition WINPE_TYPE : Z := 3.

(** The parsed command line: the two tunables the functions can see. *)
Record arguments := mk_args
  { drive_threshold : Z; correlation_cutoff : float }.

Definition default_args : arguments := mk_args 10 0.5%float.

(** ** Rowid allocation

    An INTEGER PRIMARY KEY given as NULL receives one more than the largest
    key in the table, and 1 in an empty table. *)

Definition next_rowid (ids : list Z) : Z :=
  match ids with
  | [] => 1
  | i :: rest => fold_left Z.max rest i + 1
  end.

(** ** Sorting and 64-bit integers *)

(** [sorted]: a stable sort; [before y x] says that [y] sorts strictly
    before [x].  Elements that do not differ keep their order. *)
Fixpoint insert_sorted {A} (before : A -> A -> bool) (x : A) (l : list A) : list A :=
  match l with
  | [] => [x]
  | y :: l' => if before y x then y :: insert_sorted before x l' else x :: y :: l'
  end.

Definition sorted {A} (before : A -> A -> bool) (l : list A) : list A :=
  fold_right (insert_sorted before) [] l.

(** The integers a column can hold: 64 bits, signed. *)
Definition fits_int64 (z : Z) : bool :=
  (-9223372036854775808 <=? z) && (z <=? 9223372036854775807).

(** ** Feature store *)

(** [get_driveid]: a plain INSERT; [drivename] is UNIQUE, so a name already
    in the table is a constraint violation.  Returns [lastrowid]. *)
Definition get_driveid (drivename : string) : M Z :=
  s <- get ;;
  if existsb (fun d => String.eqb (d_drivename d) drivename) (drives s)
  then raise (IntegrityError "UNIQUE constraint failed: drives.drivename")
  else
    let id := next_rowid (map d_driveid (drives s)) in
    put (mk_store (drives s ++ [mk_drive id drivename None]) (features s)
                  (feature_drive_counts s) (feature_frequencies s) (stdout s)) ;;;
    ret id.

(** [get_drivename]: [fetchone()] is [None] when no row matches, and
    subscripting it raises. *)
Definition get_drivename (driveid : Z) : M string :=
  s <- get ;;
  match filter (fun d => d_driveid d =? driveid) (drives s) with
  | d :: _ => ret (d_drivename d)
  | [] => raise (TypeError "'NoneType' object is not subscriptable")
  end.

(** [get_featureid]: INSERT OR IGNORE, then SELECT. *)
Definition get_featureid (feature : string) : M Z :=
  s <- get ;;
  (if existsb (fun f => String.eqb (f_feature f) feature) (features s)
   then ret tt
   else put (mk_store (drives s)
               (features s ++ [mk_feature (next_rowid (map f_featureid (features s))) feature])
               (feature_drive_counts s) (feature_frequencies s) (stdout s))) ;;;
  s' <- get ;;
  match filter (fun f => String.eqb (f_feature f) feature) (features s') with
  | f :: _ => ret (f_featureid f)
  | [] => raise (TypeError "'NoneType' object is not subscriptable")
  end.

(** [feature_drive_count] *)
Definition feature_drive_count (featureid : Z) : M Z :=
  s <- get ;;
  ret (Z.of_nat (List.length (filter (fun c => c_featureid c =? featureid)
                                (feature_drive_counts s)))).

(** [list_drives].  The UNIQUE constraint on [drivename] gives the table an
    index that holds both columns of this SELECT, and the engine reads the
    rows from it: they come in the order of their names, byte by byte, and
    not in the order of their ids. *)
Definition list_drives : M unit :=
  s <- get ;;
  for_each (sorted (fun y x => String.ltb (d_drivename y) (d_drivename x)) (drives s))
           (fun d => print (PrintListed (d_driveid d) (d_drivename d))).

(** ** Ingestion *)

(** What [bulk_extractor_reader.BulkReport] yields for one report: the image
    file name, the two histograms as (feature, count) pairs and the raw
    [winpe.txt] features as (position, feature, context) triples. *)
Record BulkReport := mk_report
  { image_filename : string;
    url_searches : list (string * Z);
    email_histogram : list (string * Z);
    winpe : list (string * string * string) }.

Definition delete_drive_counts (driveid : Z) : M unit :=
  s <- get ;;
  put (mk_store (drives s) (features s)
         (filter (fun c => negb (c_driveid c =? driveid)) (feature_drive_counts s))
         (feature_frequencies s) (stdout s)).

(** The INSERT into [feature_drive_counts].  [driveid] and [featureid] were
    read from the database and [feature_type] is a constant of the module;
    [count] comes from the report, and a Python [int] that does not fit in
    64 bits is refused when it is bound to the statement. *)
Definition insert_count (driveid feature_type featureid count : Z) : M unit :=
  if fits_int64 count then
    s <- get ;;
    put (mk_store (drives s) (features s)
           (feature_drive_counts s ++ [mk_count driveid feature_type featureid count])
           (feature_frequencies s) (stdout s))
  else raise (OverflowError "Python int too large to convert to SQLite INTEGER").

(** [collections.Counter]: a dict in insertion order; [counter[k] += 1]. *)
Fixpoint counter_incr (k : Z) (counter : list (Z * Z)) : list (Z * Z) :=
  match counter with
  | [] => [(k, 1)]
  | (k', n) :: rest =>
      if k' =? k then (k', n + 1) :: rest else (k', n) :: counter_incr k rest
  end.

Fixpoint tally_features (feats : list (string * string * string))
                        (pe_header_counts : list (Z * Z)) : M (list (Z * Z)) :=
  match feats with
  | [] => ret pe_header_counts
  | (_, feature, _) :: rest =>
      featureid <- get_featureid feature ;;
      tally_features rest (counter_incr featureid pe_header_counts)
  end.

Definition ingest (br : BulkReport) : M unit :=
  driveid <- get_driveid (image_filename br) ;;
  print (PrintIngesting (image_filename br) driveid) ;;;
  delete_drive_counts driveid ;;;
  for_each (url_searches br) (fun '(search, count) =>
    if String.prefix "cache:" search then ret tt
    else featureid <- get_featureid search ;;
         insert_count driveid SEARCH_TYPE featureid count) ;;;
  for_each (email_histogram br) (fun '(email, count) =>
    featureid <- get_featureid email ;;
    insert_count driveid EMAIL_TYPE featureid count) ;;;
  pe_header_counts <- tally_features (winpe br) [] ;;
  for_each pe_header_counts (fun '(featureid, count) =>
    insert_count driveid WINPE_TYPE featureid count) ;;;
  print (PrintImported driveid).

(** ** Frequency aggregation *)

Definition group_key (c : count_row) : Z * Z := (c_featureid c, c_feature_type c).

Definition key_eqb (k1 k2 : Z * Z) : bool :=
  (fst k1 =? fst k2) && (snd k1 =? snd k2).

(** The groups of [GROUP BY featureid, feature_type], each named once, in
    the order of their first row.  The order of the groups decides the [id]
    and the place of a frequency row and nothing else: the program reads
    the frequencies through a join on [featureid] and sorts what it gets. *)
Fixpoint group_keys (rows : list count_row) : list (Z * Z) :=
  match rows with
  | [] => []
  | c :: rest =>
      group_key c :: filter (fun k => negb (key_eqb k (group_key c))) (group_keys rest)
  end.

Definition group_rows (k : Z * Z) (rows : list count_row) : list count_row :=
  filter (fun c => key_eqb (group_key c) k) rows.

Definition sum_Z (l : list Z) : Z := fold_right Z.add 0 l.

(** [sum(count)]: the engine adds the values of a group one by one into a
    64-bit integer and fails the statement with "integer overflow" once a
    partial sum does not fit. *)
Fixpoint sum_from (acc : Z) (l : list Z) : option Z :=
  match l with
  | [] => Some acc
  | x :: rest => if fits_int64 (acc + x) then sum_from (acc + x) rest else None
  end.

Definition sql_sum (l : list Z) : option Z := sum_from 0 l.

Definition insert_frequency (featureid feature_type drivecount featurecount : Z) : M unit :=
  s <- get ;;
  put (mk_store (drives s) (features s) (feature_drive_counts s)
         (feature_frequencies s ++
            [mk_freq (next_rowid (map r_id (feature_frequencies s)))
                     feature_type featureid drivecount featurecount])
         (stdout s)).

Definition delete_frequencies : M unit :=
  s <- get ;;
  put (mk_store (drives s) (features s) (feature_drive_counts s) [] (stdout s)).

(** [build_feature_frequences]: [count( * )] is the number of rows of the
    group and [sum(count)] the sum of their [count] column.  A sum that
    overflows fails the INSERT as a whole. *)
Definition build_feature_frequences : M unit :=
  print (PrintText "Building feature frequences...") ;;;
  delete_frequencies ;;;
  s <- get ;;
  for_each (group_keys (feature_drive_counts s)) (fun k =>
    let g := group_rows k (feature_drive_counts s) in
    match sql_sum (map c_count g) with
    | Some featurecount =>
        insert_frequency (fst k) (snd k) (Z.of_nat (List.length g)) featurecount
    | None => raise (OperationalError "integer overflow")
    end) ;;;
  print (PrintText "Feature frequences built.").

(** ** Correlation *)

(** A fetched row of the three-way join: (drivecount, featureid, feature). *)
Definition line : Type := Z * Z * string.

Definition line_drivecount (l : line) : Z := fst (fst l).
Definition line_featureid (l : line) : Z := snd (fst l).
Definition line_feature (l : line) : string := snd l.

(** The SELECT of [correlate_for_type]: [feature_drive_counts] joined with
    [features] on the feature id and with [feature_frequencies] on the
    feature id, restricted to the rows of the drive and of the type. *)
Definition select_lines (s : store) (driveid feature_type : Z) : list line :=
  flat_map (fun c =>
    if (c_driveid c =? driveid) && (c_feature_type c =? feature_type) then
      flat_map (fun f =>
        if c_featureid c =? f_featureid f then
          flat_map (fun r =>
            if c_featureid c =? r_featureid r
            then [(r_drivecount r, c_featureid c, f_feature f)]
            else [])
            (feature_frequencies s)
        else [])
        (features s)
    else [])
    (feature_drive_counts s).

(** Python's [<] on tuples: the first position that differs decides. *)
Definition line_ltb (a b : line) : bool :=
  if line_drivecount a =? line_drivecount b then
    if line_featureid a =? line_featureid b then
      String.ltb (line_feature a) (line_feature b)
    else line_featureid a <? line_featureid b
  else line_drivecount a <? line_drivecount b.

(** [filter(lambda r: r[0]>1, sorted(res))] *)
Definition candidate_lines (s : store) (driveid feature_type : Z) : list line :=
  filter (fun r => 1 <? line_drivecount r)
         (sorted line_ltb (select_lines s driveid feature_type)).

(** The inner SELECT: the drives of every row of the feature that is not a
    row of the target drive. *)
Definition other_drives (s : store) (featureid driveid : Z) : list Z :=
  map c_driveid
      (filter (fun c => (c_featureid c =? featureid) && negb (c_driveid c =? driveid))
              (feature_drive_counts s)).

(** Python's conversion of an [int] operand to [float], for the integers a
    table can hold and the loop lets through (from 0 up to [2^63 - 1]). *)
Definition Z_to_float (z : Z) : float := PrimFloat.of_uint63 (Uint63.of_Z z).

(** [1.0/drivecount] *)
Definition weight (drivecount : Z) : float :=
  PrimFloat.div 1%float (Z_to_float drivecount).

(** A recorded contribution: [[1.0/drivecount, featureid, feature]]. *)
Definition contrib : Type := float * Z * string.

(** The two dicts of the loop, in insertion order. *)
Record tallies := mk_tallies
  { coefs : list (Z * float); contribs : list (Z * list contrib) }.

Definition dict_mem {V} (k : Z) (d : list (Z * V)) : bool :=
  existsb (fun kv => fst kv =? k) d.

Fixpoint dict_update {V} (k : Z) (f : V -> V) (d : list (Z * V)) : list (Z * V) :=
  match d with
  | [] => []
  | (k', v) :: rest =>
      if k' =? k then (k', f v) :: rest else (k', v) :: dict_update k f rest
  end.

Fixpoint dict_get {V} (k : Z) (d : list (Z * V)) : option V :=
  match d with
  | [] => None
  | (k', v) :: rest => if k' =? k then Some v else dict_get k rest
  end.

(** The body of the inner loop after its [print]. *)
Definition add_contribution (l : line) (driveid_ : Z) (t : tallies) : tallies :=
  let t0 :=
    if dict_mem driveid_ (coefs t) then t
    else mk_tallies (coefs t ++ [(driveid_, 0%float)]) (contribs t ++ [(driveid_, [])]) in
  mk_tallies
    (dict_update driveid_ (fun c => PrimFloat.add c (weight (line_drivecount l))) (coefs t0))
    (dict_update driveid_
       (fun cs => cs ++ [(weight (line_drivecount l), line_featureid l, line_feature l)])
       (contribs t0)).

Fixpoint also_on (l : line) (ds : list Z) (t : tallies) : M tallies :=
  match ds with
  | [] => ret t
  | driveid_ :: rest =>
      print (PrintAlso driveid_) ;;;
      also_on l rest (add_contribution l driveid_ t)
  end.

(** The outer loop with its [break] after the body. *)
Fixpoint walk (args : arguments) (driveid : Z) (res : list line) (t : tallies) : M tallies :=
  match res with
  | [] => ret t
  | l :: rest =>
      print (PrintLine (line_drivecount l) (line_featureid l) (line_feature l)) ;;;
      s <- get ;;
      t' <- also_on l (other_drives s (line_featureid l) driveid) t ;;
      if drive_threshold args <? line_drivecount l then ret t'
      else walk args driveid rest t'
  end.

(** Python's [<] on the contribution lists. *)
Definition contrib_ltb (a b : contrib) : bool :=
  if PrimFloat.eqb (fst (fst a)) (fst (fst b)) then
    if snd (fst a) =? snd (fst b) then String.ltb (snd a) (snd b)
    else snd (fst a) <? snd (fst b)
  else PrimFloat.ltb (fst (fst a)) (fst (fst b)).

Definition emit_drive (t : tallies) (entry : Z * float) : M unit :=
  name <- get_drivename (fst entry) ;;
  print (PrintDrive (fst entry) name) ;;;
  print (PrintCorrelation (snd entry)) ;;;
  match dict_get (fst entry) (contribs t) with
  | None => raise (TypeError "KeyError")
  | Some cs =>
      for_each (sorted (fun y x => contrib_ltb x y) cs)
               (fun c => print (PrintContrib (fst (fst c)) (snd c)))
  end ;;;
  print (PrintText "").

Definition correlate_for_type (args : arguments) (driveid feature_type : Z) : M unit :=
  s <- get ;;
  t <- walk args driveid (candidate_lines s driveid feature_type) (mk_tallies [] []) ;;
  for_each (sorted (fun y x => PrimFloat.ltb (snd x) (snd y)) (coefs t)) (emit_drive t).

(** ** Report driver *)

(** The names bound at module level when a function of the module runs
    from the command line: the imports, the constants, the functions and the
    variables of the main block. *)
Definition module_globals : list string :=
  [ "__version__"; "os"; "sys"; "re"; "collections"; "sqlite3"; "schema";
    "ttable"; "bulk_extractor_reader"; "SEARCH_TYPE"; "EMAIL_TYPE"; "WINPE_TYPE";
    "create_schema"; "get_driveid"; "get_drivename"; "get_featureid";
    "list_drives"; "feature_drive_count"; "ingest"; "correlate_for_type";
    "make_report"; "test"; "build_feature_frequences";
    "argparse"; "xml"; "parser"; "args"; "conn"; "fn" ].

(** Reading a name that the function does not assign: the module globals
    (no builtin is called [c]). *)
Definition load_global (globals : list string) (name : string) : M unit :=
  if existsb (String.eqb name) globals then ret tt else raise (NameError name).

(** [select count( * ) from <table>] *)
Definition count_rows (table : string) : M Z :=
  s <- get ;;
  if String.eqb table "drives" then ret (Z.of_nat (List.length (drives s)))
  else if String.eqb table "features" then ret (Z.of_nat (List.length (features s)))
  else if String.eqb table "feature_drive_counts"
       then ret (Z.of_nat (List.length (feature_drive_counts s)))
  else if String.eqb table "feature_frequencies"
       then ret (Z.of_nat (List.length (feature_frequencies s)))
  else raise (OperationalError (String.append "no such table: " table)).

(** [make_report] as it runs in a namespace [globals]: its first statement
    reads the name [c], which the function never assigns. *)
Definition make_report_in (globals : list string) (args : arguments) (driveid : Z) : M unit :=
  load_global globals "c" ;;;
  n <- count_rows "feature_frequences" ;;
  (if n =? 0 then build_feature_frequences else ret tt) ;;;
  name <- get_drivename driveid ;;
  print (PrintReportFor driveid name) ;;;
  print (PrintText "Email correlation report:") ;;;
  correlate_for_type args driveid EMAIL_TYPE ;;;
  print (PrintText "Search correlation report:") ;;;
  correlate_for_type args driveid SEARCH_TYPE ;;;
  print (PrintText "WINPE correlation report:") ;;;
  correlate_for_type args driveid WINPE_TYPE.

Definition make_report : arguments -> Z -> M unit := make_report_in module_globals.

(** ** Schema creation

    [create_schema] hands the pieces of [schema] between semicolons to the
    engine one at a time.  The engine is outside the repository; what is
    modelled of it is the catalog of table and index names and the grammar of
    the three statement forms the schema uses.  Column and index-column lists
    are taken as any parenthesised token sequence. *)

Definition schema : string :=
"
PRAGMA cache_size = 200000;
CREATE TABLE IF NOT EXISTS drives (driveid INTEGER PRIMARY KEY,drivename TEXT NOT NULL UNIQUE,ingested DATE);
CREATE TABLE IF NOT EXISTS features (featureid INTEGER PRIMARY KEY,feature TEXT NOT NULL UNIQUE);
CREATE INDEX IF NOT EXSITS features_idx ON features (feature);
CREATE TABLE IF NOT EXISTS feature_drive_counts (driveid INTEGER NOT NULL,feature_type INTEGER NOT NULL,featureid INTEGER NOT NULL,count INTEGER NOT NULL) ;
CREATE INDEX IF NOT EXISTS feature_drive_counts_idx1 ON feature_drive_counts(featureid);
CREATE INDEX IF NOT EXISTS feature_drive_counts_idx2 ON feature_drive_counts(count);
CREATE TABLE IF NOT EXISTS feature_frequencies (id INTEGER PRIMARY KEY,feature_type INTEGER NOT NULL,featureid INTEGER NOT NULL,drivecount INTEGER,featurecount INTEGER);
CREATE INDEX feature_frequences_idx ON feature_frequencies (featureid);
".

(** [str.split(sep)] for a one-character separator. *)
Fixpoint split_on (sep : ascii) (s : string) : list string :=
  match s with
  | EmptyString => [EmptyString]
  | String c s' =>
      if Ascii.eqb c sep then EmptyString :: split_on sep s'
      else match split_on sep s' with
           | [] => [String c EmptyString]
           | w :: ws => String c w :: ws
           end
  end.

Definition is_space (c : ascii) : bool :=
  let n := nat_of_ascii c in
  Nat.eqb n 32 || Nat.eqb n 10 || Nat.eqb n 9 || Nat.eqb n 13.

Definition is_punct (c : ascii) : bool :=
  Ascii.eqb c "(" || Ascii.eqb c ")" || Ascii.eqb c "," || Ascii.eqb c "=".

Fixpoint words (s : string) : list string :=
  match s with
  | EmptyString => [EmptyString]
  | String c s' =>
      if is_space c then EmptyString :: words s'
      else if is_punct c then EmptyString :: String c EmptyString :: words s'
      else match words s' with
           | [] => [String c EmptyString]
           | w :: ws => String c w :: ws
           end
  end.

Definition tokenize (s : string) : list string :=
  filter (fun w => negb (String.eqb w EmptyString)) (words s).

Definition upper_ascii (c : ascii) : ascii :=
  let n := nat_of_ascii c in
  if Nat.leb 97 n && Nat.leb n 122 then ascii_of_nat (n - 32) else c.

Fixpoint upper (s : string) : string :=
  match s with
  | EmptyString => EmptyString
  | String c s' => String (upper_ascii c) (upper s')
  end.

(** Keywords are matched without regard to case. *)
Definition kw (token keyword : string) : bool := String.eqb (upper token) keyword.

Inductive statement : Type :=
| EmptyStatement
| Pragma (name : string)
| CreateTable (if_not_exists : bool) (name : string)
| CreateIndex (if_not_exists : bool) (name table : string).

(** The optional [IF NOT EXISTS] in front of the object name. *)
Definition strip_if_not_exists (ts : list string) : bool * list string :=
  match ts with
  | t1 :: t2 :: t3 :: rest =>
      if kw t1 "IF" && kw t2 "NOT" && kw t3 "EXISTS" then (true, rest) else (false, ts)
  | _ => (false, ts)
  end.

(** [( ... )]: an opening parenthesis, at least one token, a closing one last. *)
Definition parenthesised (ts : list string) : bool :=
  match ts with
  | t1 :: _ :: _ :: _ =>
      String.eqb t1 "(" && String.eqb (last ts EmptyString) ")"
  | _ => false
  end.

Definition parse_create_table (ts : list string) : option statement :=
  match strip_if_not_exists ts with
  | (ine, name :: cols) => if parenthesised cols then Some (CreateTable ine name) else None
  | _ => None
  end.

Definition parse_create_index (ts : list string) : option statement :=
  match strip_if_not_exists ts with
  | (ine, name :: on :: table :: cols) =>
      if kw on "ON" && parenthesised cols then Some (CreateIndex ine name table) else None
  | _ => None
  end.

Definition parse (sql : string) : option statement :=
  match tokenize sql with
  | [] => Some EmptyStatement
  | t1 :: rest =>
      if kw t1 "PRAGMA" then
        match rest with
        | [name; eq; _] => if String.eqb eq "=" then Some (Pragma name) else None
        | _ => None
        end
      else if kw t1 "CREATE" then
        match rest with
        | t2 :: rest2 =>
            if kw t2 "TABLE" then parse_create_table rest2
            else if kw t2 "INDEX" then parse_create_index rest2
            else None
        | [] => None
        end
      else None
  end.

(** The names the database file holds. *)
Record catalog := mk_catalog { tables : list string; indexes : list string }.

Definition fresh_catalog : catalog := mk_catalog [] [].

Definition has_name (name : string) (names : list string) : bool :=
  existsb (String.eqb name) names.

Definition run_statement (st : statement) (cat : catalog) : result catalog :=
  match st with
  | EmptyStatement => Ok cat
  | Pragma _ => Ok cat
  | CreateTable ine name =>
      if has_name name (tables cat) then
        if ine then Ok cat
        else Raise (OperationalError (String.append "table already exists: " name))
      else if has_name name (indexes cat) then
        Raise (OperationalError (String.append "there is already an index named " name))
      else Ok (mk_catalog (tables cat ++ [name]) (indexes cat))
  | CreateIndex ine name table =>
      if negb (has_name table (tables cat)) then
        Raise (OperationalError (String.append "no such table: " table))
      else if has_name name (indexes cat) then
        if ine then Ok cat
        else Raise (OperationalError (String.append "index already exists: " name))
      else if has_name name (tables cat) then
        Raise (OperationalError (String.append "there is already a table named " name))
      else Ok (mk_catalog (tables cat) (indexes cat ++ [name]))
  end.

(** [c.execute(line)] *)
Definition execute (sql : string) (cat : catalog) : result catalog :=
  match parse sql with
  | Some st => run_statement st cat
  | None => Raise (OperationalError "syntax error")
  end.

(** The outcome of a run of statements: the catalog it leaves (data
    definition statements take effect one by one), what was printed, and the
    exception that ended it, if one did. *)
Record ddl_outcome := mk_outcome
  { left_catalog : catalog; printed : list string; raised : option exn }.

Fixpoint execute_lines (lines : list string) (cat : catalog) (out : list string)
  : ddl_outcome :=
  match lines with
  | [] => mk_outcome cat out None
  | l :: rest =>
      match execute l cat with
      | Ok cat' => execute_lines rest cat' (out ++ [l])
      | Raise e => mk_outcome cat (out ++ [l]) (Some e)
      end
  end.

Definition create_schema (cat : catalog) : ddl_outcome :=
  execute_lines (split_on ";" schema) cat [].

(** ** Stoplist *)

(** Modelled from the spec: [buildStoplist], which the source file announces
    in its header ([--makestop], [--threshold]) and does not define.  It
    returns every feature of the type whose drive count divided by the total
    number of drives exceeds the fraction, each once. *)
Definition over_fraction (fraction : float) (totalDriveCount : Z) (r : freq_row) : bool :=
  PrimFloat.ltb fraction
    (PrimFloat.div (Z_to_float (r_drivecount r)) (Z_to_float totalDriveCount)).

Definition buildStoplist (featureType : Z) (fraction : float) (totalDriveCount : Z)
                         (s : store) : list Z :=
  nodup Z.eq_dec
    (map r_featureid
       (filter (fun r => (r_feature_type r =? featureType)
                         && over_fraction fraction totalDriveCount r)
               (feature_frequencies s))).

(** ** The self test and the command line *)

(** [assert(cond)] *)
Definition py_assert (cond : bool) : M unit :=
  if cond then ret tt else raise AssertionError.

(** [test] *)
Definition test : M unit :=
  a <- get_featureid "A" ;;
  b <- get_featureid "B" ;;
  py_assert (negb (a =? b)) ;;;
  a' <- get_featureid "A" ;;
  py_assert (a' =? a) ;;;
  b' <- get_featureid "B" ;;
  py_assert (b' =? b).

(** What [argparse] hands to the main block.  The reports are given as the
    reader yields them. *)
Record options := mk_options
  { opt_ingest : bool; opt_list : bool; opt_recalc : bool; opt_test : bool;
    opt_report : option Z; opt_build : bool;
    opt_reports : list BulkReport; opt_args : arguments }.

(** A call of [create_schema] inside a run: its exception ends the run. *)
Definition ddl (o : ddl_outcome) : result catalog :=
  match raised o with
  | Some e => Raise e
  | None => Ok (left_catalog o)
  end.

Definition and_then {A B} (r : result A) (k : A -> result B) : result B :=
  match r with
  | Ok a => k a
  | Raise e => Raise e
  end.

(** The main block on the database file [cda2_tool.db], given by its
    catalog and its rows.  The test database is removed first and so is a
    fresh one.  The functions that read and write rows run after a
    [create_schema] that returned, which leaves all four tables in place;
    [list_drives] runs unguarded and needs the table it selects from. *)
Definition main (o : options) (cat : catalog) (st : store) : result (catalog * store) :=
  and_then
    (if opt_test o then
       and_then (ddl (create_schema fresh_catalog)) (fun _ =>
       and_then (test empty_store) (fun _ => Ok tt))
     else Ok tt) (fun _ =>
  and_then
    (if opt_ingest o then
       and_then (ddl (create_schema cat)) (fun cat' =>
       and_then (for_each (opt_reports o) ingest st) (fun r => Ok (cat', snd r)))
     else Ok (cat, st)) (fun db =>
  and_then
    (if opt_build o then
       and_then (load_global module_globals "build_feature_frequencies" (snd db))
                (fun r => Ok (snd r))
     else Ok (snd db)) (fun st1 =>
  and_then
    (if opt_list o then
       if has_name "drives" (tables (fst db))
       then and_then (list_drives st1) (fun r => Ok (snd r))
       else Raise (OperationalError "no such table: drives")
     else Ok st1) (fun st2 =>
  and_then
    (match opt_report o with
     | Some driveid =>
         if driveid =? 0 then Ok st2
         else and_then (make_report (opt_args o) driveid st2) (fun r => Ok (snd r))
     | None => Ok st2
     end) (fun st3 => Ok (fst db, st3)))))).

(** ** Predicates used in the statements *)

(** The two constraints the schema puts on [features]: [featureid] is the
    primary key and [feature] is UNIQUE. *)
Definition features_ok (s : store) : Prop :=
  NoDup (map f_featureid (features s)) /\ NoDup (map f_feature (features s)).

(** The statement of [schema] whose keyword is misspelt, as [split] cuts it:
    a newline and the text up to the semicolon. *)
Definition misspelt_statement : string :=
  String "010" "CREATE INDEX IF NOT EXSITS features_idx ON features (feature)".

(** The catalogs that program runs starting with [create_schema] can leave
    behind on a database that was fresh: the exception ends a run, and the
    catalog it left is what the next run finds. *)
Inductive schema_runs : catalog -> Prop :=
| runs_none : schema_runs fresh_catalog
| runs_again (cat : catalog) :
    schema_runs cat -> schema_runs (left_catalog (create_schema cat)).

(** What a computation prints when started on [s] with nothing printed yet. *)
Definition output_of {A} (m : M A) (s : store) : result (list out_line) :=
  match m (mk_store (drives s) (features s) (feature_drive_counts s)
                    (feature_frequencies s) []) with
  | Ok (_, s') => Ok (stdout s')
  | Raise e => Raise e
  end.

(** Ten drives: ["common"] is an email feature of the first eight,
    ["half"] of the first five, and each drive has an address of its own. *)
Definition stoplist_reports : list BulkReport :=
  map (fun i =>
         mk_report (String (ascii_of_nat (65 + i)) EmptyString) []
           ((if Nat.ltb i 8 then [("common", 1)] else []) ++
            (if Nat.ltb i 5 then [("half", 1)] else []) ++
            [(String (ascii_of_nat (97 + i)) EmptyString, 1)])
           [])
      (seq 0 10).

(** A computation leaves a component of the store as it found it
    whenever it returns. *)
Definition keeps {A T} (proj : store -> T) (m : M A) : Prop :=
  forall s a s', m s = Ok (a, s') -> proj s' = proj s.

(** The two-drive scenario: drive A with email counts x:5, y:2 and drive B
    with y:3, z:1, ingested in that order and followed by a rebuild. *)
Definition report_A : BulkReport := mk_report "A" [] [("x", 5); ("y", 2)] [].
Definition report_B : BulkReport := mk_report "B" [] [("y", 3); ("z", 1)] [].

Definition two_drives : store :=
  mk_store
    [mk_drive 1 "A" None; mk_drive 2 "B" None]
    [mk_feature 1 "x"; mk_feature 2 "y"; mk_feature 3 "z"]
    [mk_count 1 EMAIL_TYPE 1 5; mk_count 1 EMAIL_TYPE 2 2;
     mk_count 2 EMAIL_TYPE 2 3; mk_count 2 EMAIL_TYPE 3 1]
    [mk_freq 1 EMAIL_TYPE 1 1 5; mk_freq 2 EMAIL_TYPE 2 2 5;
     mk_freq 3 EMAIL_TYPE 3 1 1]
    [PrintIngesting "A" 1; PrintImported 1; PrintIngesting "B" 2; PrintImported 2;
     PrintText "Building feature frequences..."; PrintText "Feature frequences built."].

(** The rows [build_feature_frequences] inserts for the groups [keys], one
    after the other, into a table that holds [acc]. *)
Fixpoint frequency_rows (keys : list (Z * Z)) (rows : list count_row)
                        (acc : list freq_row) : list freq_row :=
  match keys with
  | [] => acc
  | k :: ks =>
      frequency_rows ks rows
        (acc ++ [mk_freq (next_rowid (map r_id acc)) (snd k) (fst k)
                         (Z.of_nat (List.length (group_rows k rows)))
                         (sum_Z (map c_count (group_rows k rows)))])
  end.

(** No group of [rows] has a sum of counts that overflows. *)
Definition sums_fit (rows : list count_row) : bool :=
  forallb (fun k => match sql_sum (map c_count (group_rows k rows)) with
                    | Some _ => true
                    | None => false
                    end)
          (group_keys rows).

(** A frequency row that belongs to the group [k] of [rows]: it carries the
    number of rows of the group and the sum of their counts. *)
Definition summarises (rows : list count_row) (k : Z * Z) (r : freq_row) : Prop :=
  r_featureid r = fst k /\ r_feature_type r = snd k /\
  r_drivecount r = Z.of_nat (List.length (group_rows k rows)) /\
  r_featurecount r = sum_Z (map c_count (group_rows k rows)).

Definition freq_key (r : freq_row) : Z * Z := (r_featureid r, r_feature_type r).

(** The drives that have a row in the group, each once. *)
Definition distinct_drives (k : Z * Z) (rows : list count_row) : list Z :=
  nodup Z.eq_dec (map c_driveid (group_rows k rows)).

(** One row per (drive, type, feature): what the data model intends and the
    schema does not enforce. *)
Definition one_row_per_drive (rows : list count_row) : Prop :=
  NoDup (map (fun c => (c_driveid c, c_feature_type c, c_featureid c)) rows).

(** A report whose email histogram names one address twice. *)
Definition report_twice : BulkReport := mk_report "A" [] [("x", 2); ("x", 3)] [].

(** The lines the outer loop of [correlate_for_type] gets to: every line up
    to the [break]. *)
Fixpoint walked (threshold : Z) (res : list line) : list line :=
  match res with
  | [] => []
  | l :: rest =>
      l :: (if threshold <? line_drivecount l then [] else walked threshold rest)
  end.

(** The (other drive, line) pairs the inner loop meets on the lines [ls]. *)
Definition contributions (s : store) (driveid : Z) (ls : list line) : list (Z * line) :=
  flat_map (fun l => map (fun d => (d, l)) (other_drives s (line_featureid l) driveid)) ls.

(** What the two loops print on the lines [ls]. *)
Definition walk_output (s : store) (driveid : Z) (ls : list line) : list out_line :=
  flat_map (fun l =>
              PrintLine (line_drivecount l) (line_featureid l) (line_feature l)
              :: map PrintAlso (other_drives s (line_featureid l) driveid))
           ls.

Definition tally (evs : list (Z * line)) (t : tallies) : tallies :=
  fold_left (fun t e => add_contribution (snd e) (fst e) t) evs t.

(** The weights a drive receives, in the order it receives them. *)
Definition weights_for (d : Z) (evs : list (Z * line)) : list float :=
  map (fun e => weight (line_drivecount (snd e))) (filter (fun e => fst e =? d) evs).

(** [0 + w1 + w2 + ...], added from the left in binary64. *)
Definition float_sum (c : float) (ws : list float) : float := fold_left PrimFloat.add ws c.

Definition with_stdout (s : store) (out : list out_line) : store :=
  mk_store (drives s) (features s) (feature_drive_counts s) (feature_frequencies s) out.



(** Two stores have the same rows of type [t] in the per-drive counts and
    in the frequencies. *)
Definition agree_on_type (t : Z) (s1 s2 : store) : Prop :=
  filter (fun c => c_feature_type c =? t) (feature_drive_counts s1) =
  filter (fun c => c_feature_type c =? t) (feature_drive_counts s2) /\
  filter (fun r => r_feature_type r =? t) (feature_frequencies s1) =
  filter (fun r => r_feature_type r =? t) (feature_frequencies s2).

(** Drives A and B hold the address q; drives C and D hold q as a search
    term only. *)
Definition email_reports : list BulkReport :=
  [mk_report "A" [] [("q", 1)] []; mk_report "B" [] [("q", 1)] []].
Definition search_reports : list BulkReport :=
  [mk_report "C" [("q", 1)] [] []; mk_report "D" [("q", 1)] [] []].

(** Drive A holds the address q; drives B, C and D hold q as a search term
    only. *)
Definition cross_type_reports : list BulkReport :=
  [mk_report "A" [] [("q", 1)] []; mk_report "B" [("q", 1)] [] [];
   mk_report "C" [("q", 1)] [] []; mk_report "D" [("q", 1)] [] []].

(** The two constraints the schema puts on [drives]: [driveid] is the
    primary key and [drivename] is UNIQUE. *)
Definition drives_ok (s : store) : Prop :=
  NoDup (map d_driveid (drives s)) /\ NoDup (map d_drivename (drives s)).

(** The name [get_drivename] finds for a drive id, if any. *)
Definition drive_name (s : store) (d : Z) : option string :=
  match filter (fun r => d_driveid r =? d) (drives s) with
  | r :: _ => Some (d_drivename r)
  | [] => None
  end.

(** The contribution lines of one drive, largest first. *)
Definition contrib_lines (cs : list contrib) : list out_line :=
  map (fun c => PrintContrib (fst (fst c)) (snd c))
      (sorted (fun y x => contrib_ltb x y) cs).

(** What the last loop prints for one entry of [coefs]. *)
Definition drive_block (s : store) (t : tallies) (entry : Z * float)
  : option (list out_line) :=
  match drive_name s (fst entry), dict_get (fst entry) (contribs t) with
  | Some name, Some cs =>
      Some ([PrintDrive (fst entry) name; PrintCorrelation (snd entry)]
              ++ contrib_lines cs ++ [PrintText ""])
  | _, _ => None
  end.

Fixpoint drive_blocks (s : store) (t : tallies) (entries : list (Z * float))
  : option (list out_line) :=
  match entries with
  | [] => Some []
  | e :: rest =>
      match drive_block s t e, drive_blocks s t rest with
      | Some b, Some bs => Some (b ++ bs)
      | _, _ => None
      end
  end.

(** [sorted(coefs.items(), key=lambda a:a[1], reverse=True)] *)
Definition ranking (t : tallies) : list (Z * float) :=
  sorted (fun y x => PrimFloat.ltb (snd x) (snd y)) (coefs t).

(** The tallies [correlate_for_type] reaches for a drive and a type. *)
Definition final_tallies (args : arguments) (s : store) (driveid feature_type : Z) : tallies :=
  tally (contributions s driveid
           (walked (drive_threshold args) (candidate_lines s driveid feature_type)))
        (mk_tallies [] []).

(** Every per-drive row names a registered drive. *)
Definition referential (s : store) : Prop :=
  forall c, In c (feature_drive_counts s) -> In (c_driveid c) (map d_driveid (drives s)).

(** Rows that record a histogram for drive [id] under type [T]: one row per
    entry, in order, with the entry's count and the id of its text. *)
Definition histogram_rows (feats : list feature_row) (id T : Z)
           (rows : list count_row) (entries : list (string * Z)) : Prop :=
  Forall2 (fun c e =>
             c_driveid c = id /\ c_feature_type c = T /\ c_count c = snd e /\
             In (mk_feature (c_featureid c) (fst e)) feats)
          rows entries.

(** Rows that record the tally of raw features for drive [id]: one row per
    distinct feature, counting its occurrences. *)
Definition tally_rows (feats : list feature_row) (id : Z)
           (rows : list count_row) (raw : list (string * string * string)) : Prop :=
  exists counter,
    rows = map (fun kv => mk_count id WINPE_TYPE (fst kv) (snd kv)) counter /\
    NoDup (map fst counter) /\
    forall fid n,
      In (fid, n) counter <->
      exists text,
        In (mk_feature fid text) feats /\
        n = Z.of_nat (count_occ string_dec (map (fun f => snd (fst f)) raw) text) /\
        0 < n.

Definition not_cached (e : string * Z) : bool := negb (String.prefix "cache:" (fst e)).

(** Every count of the report that reaches an INSERT fits in 64 bits: the
    counts of the histogram entries that are not skipped, and the number of
    raw features, which bounds every tally. *)
Definition counts_fit (br : BulkReport) : Prop :=
  Forall (fun e => fits_int64 (snd e) = true) (filter not_cached (url_searches br)) /\
  Forall (fun e => fits_int64 (snd e) = true) (email_histogram br) /\
  Z.of_nat (List.length (winpe br)) <= 9223372036854775807.

(** A store as the program means to keep it: the key and uniqueness
    constraints of [features] and [drives] hold and every per-drive row
    names a registered drive. *)
Definition well_formed (s : store) : Prop :=
  features_ok s /\ drives_ok s /\ referential s.

(** Drive rows in the order of their names. *)
Definition name_le (a b : drive_row) : Prop :=
  String.leb (d_drivename a) (d_drivename b) = true.

(** Ascending in drive count, ties in ascending feature id. *)
Definition line_le (a b : line) : Prop :=
  line_drivecount a < line_drivecount b \/
  (line_drivecount a = line_drivecount b /\ line_featureid a <= line_featureid b).

(** * Properties *)

(** ** Generic facts *)

Lemma fold_left_max_ge (l : list Z) (a x : Z) :
  In x (a :: l) -> x <= fold_left Z.max l a.
Proof.
  revert a x. induction l as [|b l IH]; intros a x [Hx | Hx]; simpl.
  - lia.
  - contradiction.
  - subst. specialize (IH (Z.max x b) (Z.max x b) (or_introl eq_refl)). lia.
  - destruct Hx as [Hx | Hx].
    + subst. specialize (IH (Z.max a x) (Z.max a x) (or_introl eq_refl)). lia.
    + apply IH. now right.
Qed.

Lemma next_rowid_fresh (ids : list Z) : ~ In (next_rowid ids) ids.
Proof.
  destruct ids as [|i rest]; simpl; [tauto|].
  intro H. apply (fold_left_max_ge rest i) in H. lia.
Qed.

Lemma NoDup_map_inj {A B} (f : A -> B) (l : list A) (x y : A) :
  NoDup (map f l) -> In x l -> In y l -> f x = f y -> x = y.
Proof.
  induction l as [|a l IH]; simpl; [tauto|].
  intros Hnd Hx Hy Hxy. inversion Hnd as [|? ? Hnotin Hnd']; subst.
  destruct Hx as [Hx | Hx], Hy as [Hy | Hy]; subst; auto.
  - exfalso. apply Hnotin. rewrite Hxy. now apply in_map.
  - exfalso. apply Hnotin. rewrite <- Hxy. now apply in_map.
Qed.

Lemma existsb_false_filter {A} (p : A -> bool) (l : list A) :
  existsb p l = false -> filter p l = [].
Proof.
  induction l as [|a l IH]; simpl; [reflexivity|].
  destruct (p a); simpl; [discriminate | exact IH].
Qed.

(** ** Feature store *)

Lemma get_featureid_spec (t : string) (s : store) :
  features_ok s ->
  exists id s',
    get_featureid t s = Ok (id, s') /\ features_ok s' /\
    In (mk_feature id t) (features s') /\ incl (features s) (features s') /\
    drives s' = drives s /\ feature_drive_counts s' = feature_drive_counts s /\
    feature_frequencies s' = feature_frequencies s /\ stdout s' = stdout s.
Proof.
  intros [Hid Hft]. unfold get_featureid, bind, get.
  destruct (existsb (fun f => String.eqb (f_feature f) t) (features s)) eqn:Hex.
  - unfold ret.
    destruct (filter (fun f => String.eqb (f_feature f) t) (features s)) as [|f fs] eqn:Hf.
    + apply existsb_exists in Hex. destruct Hex as [f [Hin Heq]].
      assert (Hin' : In f (filter (fun f => String.eqb (f_feature f) t) (features s)))
        by (apply filter_In; auto).
      rewrite Hf in Hin'. contradiction.
    + assert (Hin : In f (filter (fun f => String.eqb (f_feature f) t) (features s)))
        by (rewrite Hf; now left).
      apply filter_In in Hin. destruct Hin as [Hin Heq].
      apply String.eqb_eq in Heq.
      exists (f_featureid f), s. repeat split; auto using incl_refl.
      destruct f as [i x]; simpl in *; subst; exact Hin.
  - unfold put, ret. simpl.
    rewrite filter_app, (existsb_false_filter _ _ Hex). simpl.
    rewrite String.eqb_refl. simpl.
    eexists _, _. split; [reflexivity|]. unfold features_ok. simpl.
    repeat split.
    + rewrite map_app. simpl. apply NoDup_app; auto.
      * constructor; [simpl; tauto | constructor].
      * intros a Ha [Hb | []]. subst. exact (next_rowid_fresh _ Ha).
    + rewrite map_app. simpl. apply NoDup_app; auto.
      * constructor; [simpl; tauto | constructor].
      * intros a Ha [Hb | []]. subst.
        apply in_map_iff in Ha. destruct Ha as [f [Hf Hin]].
        assert (Hc : existsb (fun g => String.eqb (f_feature g) (f_feature f)) (features s) = true).
        { apply existsb_exists. exists f. split; [exact Hin | apply String.eqb_refl]. }
        rewrite Hf in Hc. congruence.
    + apply in_or_app. right. now left.
    + apply incl_appl, incl_refl.
Qed.

Lemma resolve_all_spec (texts : list string) (s : store) :
  features_ok s ->
  exists ids s',
    map_M get_featureid texts s = Ok (ids, s') /\ features_ok s' /\
    Forall2 (fun id t => In (mk_feature id t) (features s')) ids texts /\
    incl (features s) (features s').
Proof.
  revert s. induction texts as [|t texts IH]; intros s Hok.
  - exists [], s. repeat split; auto using incl_refl; apply Hok.
  - destruct (get_featureid_spec t s Hok)
      as (id & s1 & Hrun & Hok1 & Hin & Hincl & _).
    destruct (IH s1 Hok1) as (ids & s2 & Hrun2 & Hok2 & Hall & Hincl2).
    exists (id :: ids), s2. simpl. unfold bind at 1. rewrite Hrun.
    unfold bind at 1. rewrite Hrun2. unfold ret.
    repeat split; try apply Hok2.
    + constructor; [apply Hincl2, Hin | exact Hall].
    + eapply incl_tran; eassumption.
Qed.

Lemma Forall2_nth_error {A B} (R : A -> B -> Prop) (l : list A) (l' : list B)
      (i : nat) (x : A) (y : B) :
  Forall2 R l l' -> nth_error l i = Some x -> nth_error l' i = Some y -> R x y.
Proof.
  intros H. revert i. induction H as [|a b l l' Hab _ IH]; intros [|i] Hx Hy;
    simpl in *; try discriminate.
  - now inversion Hx; inversion Hy; subst.
  - eauto.
Qed.

(** C6.  On a features table that satisfies its schema constraints, any
    sequence of [get_featureid] calls, repeats and interleavings included,
    runs without an exception and returns one identifier per text: two calls
    return the same identifier exactly when they were given the same text. *)
Theorem get_featureid_bijection (s : store) (texts : list string) :
  features_ok s ->
  exists ids s',
    map_M get_featureid texts s = Ok (ids, s') /\
    List.length ids = List.length texts /\
    forall i j a b x y,
      nth_error texts i = Some a -> nth_error texts j = Some b ->
      nth_error ids i = Some x -> nth_error ids j = Some y ->
      (a = b <-> x = y).
Proof.
  intros Hok.
  destruct (resolve_all_spec texts s Hok) as (ids & s' & Hrun & [Hid Hft] & Hall & _).
  exists ids, s'. split; [exact Hrun|]. split.
  - now apply Forall2_length in Hall.
  - intros i j a b x y Ha Hb Hx Hy.
    pose proof (Forall2_nth_error _ _ _ _ _ _ Hall Hx Ha) as Hxa.
    pose proof (Forall2_nth_error _ _ _ _ _ _ Hall Hy Hb) as Hyb.
    split; intro Heq.
    + assert (E : mk_feature x a = mk_feature y b)
        by (apply (NoDup_map_inj f_feature (features s')); auto).
      congruence.
    + assert (E : mk_feature x a = mk_feature y b)
        by (apply (NoDup_map_inj f_featureid (features s')); auto).
      congruence.
Qed.

Lemma get_featureid_bijection_witness :
  exists ids s',
    map_M get_featureid ["A"; "B"; "A"; "B"] empty_store = Ok (ids, s') /\
    List.length ids = List.length ["A"; "B"; "A"; "B"] /\
    forall i j a b x y,
      nth_error ["A"; "B"; "A"; "B"] i = Some a ->
      nth_error ["A"; "B"; "A"; "B"] j = Some b ->
      nth_error ids i = Some x -> nth_error ids j = Some y ->
      (a = b <-> x = y).
Proof.
  apply (get_featureid_bijection empty_store ["A"; "B"; "A"; "B"]).
  split; simpl; constructor.
Defined.

(** ** Schema creation *)

Lemma execute_lines_raises (bad : string) (post : list string) :
  parse bad = None ->
  forall pre cat out,
    exists e, raised (execute_lines (pre ++ bad :: post) cat out) = Some e.
Proof.
  intros Hbad. induction pre as [|l pre IH]; intros cat out; simpl.
  - unfold execute. rewrite Hbad. simpl. eauto.
  - destruct (execute l cat) as [cat'|e]; simpl; eauto.
Qed.

Lemma schema_split :
  exists l0 l1 l2 post,
    split_on ";" schema = [l0; l1; l2] ++ misspelt_statement :: post.
Proof. do 4 eexists. vm_compute. reflexivity. Qed.

Ltac eval_parse :=
  repeat match goal with
         | |- context [parse ?l] =>
             let v := eval vm_compute in (parse l) in
             change (parse l) with v
         end.

Lemma create_schema_tables (cat : catalog) :
  exists added,
    tables (left_catalog (create_schema cat)) = tables cat ++ added /\
    incl added ["drives"; "features"].
Proof.
  unfold create_schema.
  set (lines := split_on ";" schema). vm_compute in lines. subst lines.
  cbn [execute_lines]. unfold execute. eval_parse. cbn [run_statement].
  destruct (has_name "drives" (tables cat)) eqn:Hd;
    [| destruct (has_name "drives" (indexes cat)) eqn:Hdi ]; cbn -[has_name].
  - destruct (has_name "features" (tables cat)) eqn:Hf;
      [| destruct (has_name "features" (indexes cat)) eqn:Hfi ]; cbn -[has_name].
    + exists []. rewrite app_nil_r. split; [reflexivity | apply incl_nil_l].
    + exists []. rewrite app_nil_r. split; [reflexivity | apply incl_nil_l].
    + exists ["features"]. split; [reflexivity | intros x [<-|[]]; simpl; auto].
  - exists []. rewrite app_nil_r. split; [reflexivity | apply incl_nil_l].
  - destruct (has_name "features" (tables cat ++ ["drives"])) eqn:Hf;
      [| destruct (has_name "features" (indexes cat)) eqn:Hfi ]; cbn -[has_name].
    + exists ["drives"]. split; [reflexivity | intros x [<-|[]]; simpl; auto].
    + exists ["drives"]. split; [reflexivity | intros x [<-|[]]; simpl; auto].
    + exists ["drives"; "features"]. rewrite <- app_assoc.
      split; [reflexivity | apply incl_refl].
Qed.

Lemma schema_runs_tables (cat : catalog) :
  schema_runs cat -> incl (tables cat) ["drives"; "features"].
Proof.
  induction 1 as [|cat _ IH].
  - apply incl_nil_l.
  - destruct (create_schema_tables cat) as (added & E & I).
    rewrite E. now apply incl_app.
Qed.

Lemma has_name_incl (name : string) (l l' : list string) :
  incl l l' -> has_name name l' = false -> has_name name l = false.
Proof.
  intros Hincl Hno. unfold has_name in *.
  destruct (existsb (String.eqb name) l) eqn:E; [|reflexivity].
  apply existsb_exists in E. destruct E as (x & Hx & Hnx).
  assert (existsb (String.eqb name) l' = true)
    by (apply existsb_exists; exists x; auto).
  congruence.
Qed.

(** C10.  Every call of [create_schema] ends in an exception, whatever the
    database already holds.  The piece at index 3 of [schema.split(";")] (the
    third after the PRAGMA) is [CREATE INDEX IF NOT EXSITS features_idx ON
    features (feature)], which the engine cannot parse; on a fresh database
    the call prints four pieces, leaves exactly the tables [drives] and
    [features] and raises a syntax error; and however many runs start with
    [create_schema] on a database that was fresh, neither
    [feature_drive_counts] nor [feature_frequencies] ever exists. *)
Theorem create_schema_always_raises :
  (forall cat, exists e, raised (create_schema cat) = Some e) /\
  (nth_error (split_on ";" schema) 3 = Some misspelt_statement /\
   parse misspelt_statement = None) /\
  create_schema fresh_catalog =
    mk_outcome (mk_catalog ["drives"; "features"] [])
               (firstn 4 (split_on ";" schema))
               (Some (OperationalError "syntax error")) /\
  (forall cat, schema_runs cat ->
     has_name "feature_drive_counts" (tables cat) = false /\
     has_name "feature_frequencies" (tables cat) = false).
Proof.
  split; [| split; [| split]].
  - intros cat. unfold create_schema.
    destruct schema_split as (l0 & l1 & l2 & post & E). rewrite E.
    apply execute_lines_raises. vm_compute. reflexivity.
  - split; vm_compute; reflexivity.
  - vm_compute. reflexivity.
  - intros cat Hruns. pose proof (schema_runs_tables cat Hruns) as I.
    split; apply (has_name_incl _ _ _ I); vm_compute; reflexivity.
Qed.

Lemma create_schema_always_raises_witness :
  has_name "feature_drive_counts"
    (tables (left_catalog (create_schema fresh_catalog))) = false /\
  has_name "feature_frequencies"
    (tables (left_catalog (create_schema fresh_catalog))) = false.
Proof.
  exact (proj2 (proj2 (proj2 create_schema_always_raises))
           (left_catalog (create_schema fresh_catalog))
           (runs_again fresh_catalog runs_none)).
Defined.

(** ** Report driver *)

(** C7.  [make_report] raises on every store and for every drive id: its
    first statement reads the name [c], which is bound neither in the
    function nor in the module, so the emptiness check, the rebuild and the
    three correlation runs are never reached.  Were [c] bound, the statement
    would still raise, because the table it names, [feature_frequences], is
    not one of the four tables of the schema. *)
Theorem make_report_always_raises (args : arguments) (driveid : Z) (s : store) :
  make_report args driveid s = Raise (NameError "c") /\
  make_report_in ("c" :: module_globals) args driveid s =
    Raise (OperationalError "no such table: feature_frequences") /\
  forall globals, exists e, make_report_in globals args driveid s = Raise e.
Proof.
  split; [reflexivity | split; [reflexivity |]].
  intros globals. unfold make_report_in, bind, load_global.
  destruct (existsb (String.eqb "c") globals); simpl; eauto.
Qed.

(** ** Stoplist *)

(** C8.  [buildStoplist] returns, each once, exactly the features of the
    given type that have a frequency row whose drive count divided by the
    total number of drives exceeds the fraction.  After ingesting ten
    drives, with a feature on eight of them and another on five, and a
    rebuild, the stoplist for fraction 0.7 holds the first feature (id 1) and
    not the second (id 2). *)
Theorem buildStoplist_membership :
  (forall featureType fraction totalDriveCount s f,
     In f (buildStoplist featureType fraction totalDriveCount s) <->
     exists r, In r (feature_frequencies s) /\
               r_feature_type r = featureType /\ r_featureid r = f /\
               PrimFloat.ltb fraction
                 (PrimFloat.div (Z_to_float (r_drivecount r))
                                (Z_to_float totalDriveCount)) = true) /\
  (forall featureType fraction totalDriveCount s,
     NoDup (buildStoplist featureType fraction totalDriveCount s)) /\
  exists s,
    (for_each stoplist_reports ingest ;;; build_feature_frequences) empty_store
      = Ok (tt, s) /\
    Z.of_nat (List.length (drives s)) = 10 /\
    In (mk_freq 1 EMAIL_TYPE 1 8 8) (feature_frequencies s) /\
    In (mk_freq 2 EMAIL_TYPE 2 5 5) (feature_frequencies s) /\
    buildStoplist EMAIL_TYPE 0x1.6666666666666p-1%float 10 s = [1].
Proof.
  split; [| split].
  - intros ft fr total s f. unfold buildStoplist, over_fraction.
    rewrite nodup_In, in_map_iff. split.
    + intros (r & Hf & Hin). apply filter_In in Hin. destruct Hin as [Hin Hb].
      apply andb_prop in Hb. destruct Hb as [Ht Hfr].
      apply Z.eqb_eq in Ht. exists r. auto.
    + intros (r & Hin & Ht & Hf & Hfr). exists r. split; [exact Hf|].
      apply filter_In. split; [exact Hin|].
      apply andb_true_intro. split; [now apply Z.eqb_eq | exact Hfr].
  - intros. apply NoDup_nodup.
  - eexists. split; [vm_compute; reflexivity|].
    repeat split; vm_compute; auto 20.
Qed.

(** ** Frame lemmas: which tables an operation leaves alone *)

Lemma bind_ok {A B} (m : M A) (k : A -> M B) (s : store) (r : B * store) :
  bind m k s = Ok r -> exists a s1, m s = Ok (a, s1) /\ k a s1 = Ok r.
Proof.
  unfold bind. destruct (m s) as [[a s1]|e]; [eauto | discriminate].
Qed.

Lemma keeps_ret {A T} (proj : store -> T) (a : A) : keeps proj (ret a).
Proof. intros s b s' H. unfold ret in H. now inversion H. Qed.

Lemma keeps_bind {A B T} (proj : store -> T) (m : M A) (k : A -> M B) :
  keeps proj m -> (forall a, keeps proj (k a)) -> keeps proj (bind m k).
Proof.
  intros Hm Hk s b s' H. apply bind_ok in H. destruct H as (a & s1 & H1 & H2).
  rewrite (Hk a _ _ _ H2). exact (Hm _ _ _ H1).
Qed.

Lemma keeps_for_each {A T} (proj : store -> T) (xs : list A) (body : A -> M unit) :
  (forall x, keeps proj (body x)) -> keeps proj (for_each xs body).
Proof.
  intros Hb. induction xs as [|x xs IH]; simpl.
  - apply keeps_ret.
  - apply keeps_bind; auto.
Qed.

Lemma keeps_get {T} (proj : store -> T) : keeps proj get.
Proof. intros s a s' H. unfold get in H. now inversion H. Qed.

Lemma keeps_raise {A T} (proj : store -> T) (e : exn) : keeps proj (@raise A e).
Proof. intros s a s' H. discriminate H. Qed.

Ltac frame_prim :=
  let s := fresh "s" in let a := fresh "a" in let s' := fresh "s'" in
  let H := fresh "H" in
  intros s a s' H;
  repeat (unfold bind, get, put, ret, raise, print in H; simpl in H);
  repeat match type of H with
         | context [if ?b then _ else _] => destruct b
         | context [match ?l with [] => _ | _ :: _ => _ end] => destruct l
         end;
  try discriminate H; inversion H; subst; reflexivity.

Lemma print_keeps_drives l : keeps drives (print l).
Proof. frame_prim. Qed.
Lemma print_keeps_features l : keeps features (print l).
Proof. frame_prim. Qed.
Lemma print_keeps_counts l : keeps feature_drive_counts (print l).
Proof. frame_prim. Qed.
Lemma print_keeps_frequencies l : keeps feature_frequencies (print l).
Proof. frame_prim. Qed.

Lemma get_featureid_keeps_drives t : keeps drives (get_featureid t).
Proof. unfold get_featureid. frame_prim. Qed.
Lemma get_featureid_keeps_counts t : keeps feature_drive_counts (get_featureid t).
Proof. unfold get_featureid. frame_prim. Qed.
Lemma get_featureid_keeps_frequencies t : keeps feature_frequencies (get_featureid t).
Proof. unfold get_featureid. frame_prim. Qed.
Lemma get_featureid_keeps_stdout t : keeps stdout (get_featureid t).
Proof. unfold get_featureid. frame_prim. Qed.

Lemma get_drivename_keeps {T} (proj : store -> T) d : keeps proj (get_drivename d).
Proof. unfold get_drivename. frame_prim. Qed.

Lemma insert_count_keeps_drives d t f c : keeps drives (insert_count d t f c).
Proof. unfold insert_count. frame_prim. Qed.
Lemma insert_count_keeps_features d t f c : keeps features (insert_count d t f c).
Proof. unfold insert_count. frame_prim. Qed.
Lemma insert_count_keeps_frequencies d t f c :
  keeps feature_frequencies (insert_count d t f c).
Proof. unfold insert_count. frame_prim. Qed.

Lemma delete_drive_counts_keeps_drives d : keeps drives (delete_drive_counts d).
Proof. unfold delete_drive_counts. frame_prim. Qed.
Lemma delete_drive_counts_keeps_features d : keeps features (delete_drive_counts d).
Proof. unfold delete_drive_counts. frame_prim. Qed.
Lemma delete_drive_counts_keeps_frequencies d :
  keeps feature_frequencies (delete_drive_counts d).
Proof. unfold delete_drive_counts. frame_prim. Qed.

Lemma tally_features_keeps {T} (proj : store -> T) feats :
  (forall t, keeps proj (get_featureid t)) ->
  forall counter, keeps proj (tally_features feats counter).
Proof.
  intros Hg. induction feats as [|[[pos feature] context] feats IH]; intros counter; simpl.
  - apply keeps_ret.
  - apply keeps_bind; auto.
Qed.

Create HintDb frame.
#[local] Hint Resolve keeps_ret keeps_get keeps_raise
  print_keeps_drives print_keeps_features print_keeps_counts print_keeps_frequencies
  get_featureid_keeps_drives get_featureid_keeps_counts
  get_featureid_keeps_frequencies get_featureid_keeps_stdout
  insert_count_keeps_drives insert_count_keeps_features insert_count_keeps_frequencies
  delete_drive_counts_keeps_drives delete_drive_counts_keeps_features
  delete_drive_counts_keeps_frequencies : frame.

Ltac frame :=
  repeat first
    [ solve [auto with frame]
    | apply get_drivename_keeps
    | apply tally_features_keeps; intros ?
    | apply keeps_for_each; intros ?
    | match goal with |- keeps _ (let '(_, _) := ?p in _) => destruct p end
    | match goal with |- keeps _ (if ?b then _ else _) => destruct b end
    | match goal with |- keeps _ (bind _ _) => apply keeps_bind; [| intros ? ] end ].

(** ** Ingestion *)

Lemma get_driveid_ok (name : string) (s : store) (id : Z) (s1 : store) :
  get_driveid name s = Ok (id, s1) ->
  existsb (fun d => String.eqb (d_drivename d) name) (drives s) = false /\
  id = next_rowid (map d_driveid (drives s)) /\
  drives s1 = drives s ++ [mk_drive id name None] /\
  features s1 = features s /\
  feature_drive_counts s1 = feature_drive_counts s /\
  feature_frequencies s1 = feature_frequencies s /\
  stdout s1 = stdout s.
Proof.
  unfold get_driveid, bind, get, put, ret, raise.
  destruct (existsb _ (drives s)); [discriminate|].
  intros H. inversion H; subst. simpl. repeat split; reflexivity.
Qed.

Lemma get_driveid_known (name : string) (s : store) :
  existsb (fun d => String.eqb (d_drivename d) name) (drives s) = true ->
  get_driveid name s = Raise (IntegrityError "UNIQUE constraint failed: drives.drivename").
Proof. intros H. unfold get_driveid, bind, get, raise. now rewrite H. Qed.

(** C1.  Evaluation at the failing input and beyond: whenever [ingest] of a
    report has returned, a second [ingest] of the same report raises the
    UNIQUE violation of [drives.drivename] in [get_driveid], before the
    DELETE and before any row is inserted. *)
Theorem ingest_again_raises (br : BulkReport) (s s' : store) (u : unit) :
  ingest br s = Ok (u, s') ->
  ingest br s' = Raise (IntegrityError "UNIQUE constraint failed: drives.drivename") /\
  get_driveid (image_filename br) s' =
    Raise (IntegrityError "UNIQUE constraint failed: drives.drivename").
Proof.
  intros H. unfold ingest in H. apply bind_ok in H.
  destruct H as (driveid & s1 & Hid & Hrest).
  apply get_driveid_ok in Hid. destruct Hid as (_ & _ & Hdrives & _).
  assert (Hkept : drives s' = drives s1).
  { revert Hrest.
    match goal with |- ?m s1 = _ -> _ => assert (Hk : keeps drives m) by frame end.
    apply Hk. }
  assert (Hknown : existsb (fun d => String.eqb (d_drivename d) (image_filename br))
                           (drives s') = true).
  { rewrite Hkept, Hdrives, existsb_app. simpl.
    rewrite String.eqb_refl. now rewrite orb_true_r. }
  split; [| now apply get_driveid_known].
  unfold ingest, bind. now rewrite (get_driveid_known _ _ Hknown).
Qed.

Lemma ingest_again_raises_witness :
  ingest (mk_report "A" [] [("x", 5); ("y", 2)] [])
    (mk_store [mk_drive 1 "A" None]
              [mk_feature 1 "x"; mk_feature 2 "y"]
              [mk_count 1 EMAIL_TYPE 1 5; mk_count 1 EMAIL_TYPE 2 2] []
              [PrintIngesting "A" 1; PrintImported 1])
  = Raise (IntegrityError "UNIQUE constraint failed: drives.drivename") /\
  get_driveid "A"
    (mk_store [mk_drive 1 "A" None]
              [mk_feature 1 "x"; mk_feature 2 "y"]
              [mk_count 1 EMAIL_TYPE 1 5; mk_count 1 EMAIL_TYPE 2 2] []
              [PrintIngesting "A" 1; PrintImported 1])
  = Raise (IntegrityError "UNIQUE constraint failed: drives.drivename").
Proof.
  apply (ingest_again_raises (mk_report "A" [] [("x", 5); ("y", 2)] [])
                             empty_store _ tt).
  vm_compute. reflexivity.
Defined.

(** ** The unused tunable *)

Lemma bind_cong {A B} (m1 m2 : M A) (k1 k2 : A -> M B) (s : store) :
  m1 s = m2 s -> (forall a s', k1 a s' = k2 a s') -> bind m1 k1 s = bind m2 k2 s.
Proof.
  intros Hm Hk. unfold bind. rewrite Hm.
  destruct (m2 s) as [[a s']|e]; [apply Hk | reflexivity].
Qed.

Lemma walk_threshold (a1 a2 : arguments) (driveid : Z) :
  drive_threshold a1 = drive_threshold a2 ->
  forall res t s, walk a1 driveid res t s = walk a2 driveid res t s.
Proof.
  intros H. induction res as [|l res IH]; intros t s; simpl; [reflexivity|].
  apply bind_cong; [reflexivity | intros _ s1].
  apply bind_cong; [reflexivity | intros s2 s3].
  apply bind_cong; [reflexivity | intros t' s4].
  rewrite H. destruct (drive_threshold a2 <? line_drivecount l); [reflexivity | apply IH].
Qed.

Lemma correlate_threshold (a1 a2 : arguments) (driveid feature_type : Z) (s : store) :
  drive_threshold a1 = drive_threshold a2 ->
  correlate_for_type a1 driveid feature_type s =
  correlate_for_type a2 driveid feature_type s.
Proof.
  intros H. unfold correlate_for_type.
  apply bind_cong; [reflexivity | intros s0 s1].
  apply bind_cong; [now apply walk_threshold | reflexivity].
Qed.

(** C9.  Two argument records that differ at most in [correlation_cutoff]
    give the same result, store and printed lines included: for
    [correlate_for_type] on every drive, type and store, and for
    [make_report] in the module's namespace and in any other. *)
Theorem correlation_cutoff_unused (a1 a2 : arguments) (driveid : Z) (s : store) :
  drive_threshold a1 = drive_threshold a2 ->
  (forall feature_type,
     correlate_for_type a1 driveid feature_type s =
     correlate_for_type a2 driveid feature_type s) /\
  make_report a1 driveid s = make_report a2 driveid s /\
  (forall globals,
     make_report_in globals a1 driveid s = make_report_in globals a2 driveid s).
Proof.
  intros H.
  assert (Hin : forall globals,
             make_report_in globals a1 driveid s = make_report_in globals a2 driveid s).
  { intros globals. unfold make_report_in.
    repeat match goal with
           | |- bind _ _ _ = bind _ _ _ =>
               apply bind_cong;
               [first [reflexivity | now apply correlate_threshold] | intros ? ?]
           end.
    now apply correlate_threshold. }
  split; [| split].
  - intros ft. now apply correlate_threshold.
  - apply Hin.
  - exact Hin.
Qed.

Lemma correlation_cutoff_unused_witness :
  (forall feature_type,
     correlate_for_type (mk_args 10 0.5%float) 1 feature_type two_drives =
     correlate_for_type (mk_args 10 0.125%float) 1 feature_type two_drives) /\
  make_report (mk_args 10 0.5%float) 1 two_drives =
  make_report (mk_args 10 0.125%float) 1 two_drives /\
  (forall globals,
     make_report_in globals (mk_args 10 0.5%float) 1 two_drives =
     make_report_in globals (mk_args 10 0.125%float) 1 two_drives).
Proof.
  apply (correlation_cutoff_unused (mk_args 10 0.5%float) (mk_args 10 0.125%float)
                                   1 two_drives).
  reflexivity.
Defined.

(** ** Frequency aggregation *)

Lemma key_eqb_eq (k1 k2 : Z * Z) : key_eqb k1 k2 = true <-> k1 = k2.
Proof.
  destruct k1 as [a b], k2 as [c d]. unfold key_eqb. simpl.
  rewrite andb_true_iff, !Z.eqb_eq. split; [intros []; congruence | intros H; inversion H; auto].
Qed.

Lemma key_eqb_refl (k : Z * Z) : key_eqb k k = true.
Proof. now apply key_eqb_eq. Qed.

Lemma group_keys_In (rows : list count_row) (k : Z * Z) :
  In k (group_keys rows) <-> exists c, In c rows /\ group_key c = k.
Proof.
  induction rows as [|c rows IH]; simpl.
  - split; [tauto | intros (c & [] & _)].
  - split.
    + intros [H | H]; [exists c; auto|].
      apply filter_In in H. destruct H as [H _].
      apply IH in H. destruct H as (c' & Hc' & Hk). exists c'. auto.
    + intros (c' & [Hc' | Hc'] & Hk); [subst; auto|].
      destruct (key_eqb k (group_key c)) eqn:E.
      * apply key_eqb_eq in E. auto.
      * right. apply filter_In. split; [apply IH; eauto | now rewrite E].
Qed.

Lemma group_keys_NoDup (rows : list count_row) : NoDup (group_keys rows).
Proof.
  induction rows as [|c rows IH]; simpl; constructor.
  - intros H. apply filter_In in H. destruct H as [_ H].
    now rewrite key_eqb_refl in H.
  - now apply NoDup_filter.
Qed.

Lemma sum_from_sum_Z (l : list Z) :
  forall acc v, sum_from acc l = Some v -> v = acc + sum_Z l.
Proof.
  induction l as [|x l IH]; intros acc v H; simpl in *.
  - inversion H. lia.
  - destruct (fits_int64 (acc + x)); [| discriminate].
    apply IH in H. lia.
Qed.

Lemma sql_sum_sum_Z (l : list Z) (v : Z) : sql_sum l = Some v -> v = sum_Z l.
Proof. intros H. apply sum_from_sum_Z in H. lia. Qed.

Lemma for_each_insert_frequency (rows : list count_row) (keys : list (Z * Z)) :
  forall s,
    for_each keys (fun k =>
      let g := group_rows k rows in
      match sql_sum (map c_count g) with
      | Some featurecount =>
          insert_frequency (fst k) (snd k) (Z.of_nat (List.length g)) featurecount
      | None => raise (OperationalError "integer overflow")
      end) s
    = (if forallb (fun k => match sql_sum (map c_count (group_rows k rows)) with
                            | Some _ => true
                            | None => false
                            end) keys
       then Ok (tt, mk_store (drives s) (features s) (feature_drive_counts s)
                             (frequency_rows keys rows (feature_frequencies s)) (stdout s))
       else Raise (OperationalError "integer overflow")).
Proof.
  induction keys as [|k keys IH]; intros s; simpl.
  - destruct s; reflexivity.
  - unfold bind at 1.
    destruct (sql_sum (map c_count (group_rows k rows))) as [v|] eqn:E; simpl.
    + apply sql_sum_sum_Z in E. subst v.
      unfold insert_frequency at 1, bind, get, put. simpl.
      rewrite IH. reflexivity.
    + reflexivity.
Qed.

Lemma build_feature_frequences_spec (s : store) :
  build_feature_frequences s =
  (if sums_fit (feature_drive_counts s)
   then Ok (tt, mk_store (drives s) (features s) (feature_drive_counts s)
                  (frequency_rows (group_keys (feature_drive_counts s))
                                  (feature_drive_counts s) [])
                  ((stdout s ++ [PrintText "Building feature frequences..."])
                     ++ [PrintText "Feature frequences built."]))
   else Raise (OperationalError "integer overflow")).
Proof.
  unfold build_feature_frequences, bind, print, delete_frequencies, get, put. simpl.
  rewrite for_each_insert_frequency. unfold sums_fit.
  destruct (forallb _ _); reflexivity.
Qed.

Lemma build_feature_frequences_ok (s s' : store) :
  build_feature_frequences s = Ok (tt, s') ->
  sums_fit (feature_drive_counts s) = true /\
  s' = mk_store (drives s) (features s) (feature_drive_counts s)
         (frequency_rows (group_keys (feature_drive_counts s))
                         (feature_drive_counts s) [])
         ((stdout s ++ [PrintText "Building feature frequences..."])
            ++ [PrintText "Feature frequences built."]).
Proof.
  rewrite build_feature_frequences_spec.
  destruct (sums_fit (feature_drive_counts s)); [| discriminate].
  intros H. inversion H. auto.
Qed.

Lemma frequency_rows_In (rows : list count_row) (keys : list (Z * Z)) :
  forall acc r,
    In r (frequency_rows keys rows acc) ->
    In r acc \/ exists k, In k keys /\ summarises rows k r.
Proof.
  induction keys as [|k keys IH]; intros acc r H; simpl in H; [auto|].
  apply IH in H. destruct H as [H | (k' & Hk' & Hs)].
  - apply in_app_or in H. destruct H as [H | [H | []]]; [auto|].
    right. exists k. split; [now left|]. subst r. repeat split.
  - right. exists k'. split; [now right | exact Hs].
Qed.

Lemma frequency_rows_keeps (rows : list count_row) (keys : list (Z * Z)) :
  forall acc r, In r acc -> In r (frequency_rows keys rows acc).
Proof.
  induction keys as [|k keys IH]; intros acc r H; simpl; [exact H|].
  apply IH, in_or_app. now left.
Qed.

Lemma frequency_rows_complete (rows : list count_row) (keys : list (Z * Z)) :
  forall acc k,
    In k keys -> exists r, In r (frequency_rows keys rows acc) /\ summarises rows k r.
Proof.
  induction keys as [|k0 keys IH]; intros acc k H; simpl; [contradiction|].
  destruct H as [H | H].
  - subst k0. eexists. split.
    + apply frequency_rows_keeps, in_or_app. right. left. reflexivity.
    + repeat split.
  - now apply IH.
Qed.

Lemma frequency_rows_count (rows : list count_row) (keys : list (Z * Z)) (k : Z * Z) :
  forall acc,
    List.length (filter (fun r => key_eqb (freq_key r) k) (frequency_rows keys rows acc)) =
    (List.length (filter (fun r => key_eqb (freq_key r) k) acc) +
     List.length (filter (fun k' => key_eqb k' k) keys))%nat.
Proof.
  induction keys as [|k0 keys IH]; intros acc; simpl; [lia|].
  rewrite IH, filter_app, length_app. simpl. unfold freq_key at 2. simpl.
  destruct k0 as [f0 t0]. simpl.
  destruct (key_eqb (f0, t0) k); simpl; lia.
Qed.

Lemma NoDup_filter_one (keys : list (Z * Z)) (k : Z * Z) :
  NoDup keys -> In k keys ->
  List.length (filter (fun k' => key_eqb k' k) keys) = 1%nat.
Proof.
  induction keys as [|k0 keys IH]; intros Hnd Hin; [contradiction|].
  inversion Hnd as [|? ? Hnotin Hnd']; subst. simpl.
  destruct (key_eqb k0 k) eqn:E.
  - apply key_eqb_eq in E. subst k0. simpl. f_equal.
    rewrite (proj2 (length_zero_iff_nil _)); [reflexivity|].
    destruct (filter (fun k' => key_eqb k' k) keys) as [|x l] eqn:F; [reflexivity|].
    assert (Hx : In x (filter (fun k' => key_eqb k' k) keys)) by (rewrite F; now left).
    apply filter_In in Hx. destruct Hx as [Hx Hk]. apply key_eqb_eq in Hk. now subst x.
  - destruct Hin as [Hin | Hin]; [subst; now rewrite key_eqb_refl in E | auto].
Qed.

Lemma group_drives_NoDup (rows : list count_row) (k : Z * Z) :
  one_row_per_drive rows -> NoDup (map c_driveid (group_rows k rows)).
Proof.
  unfold one_row_per_drive, group_rows.
  induction rows as [|c rows IH]; simpl; intros Hnd; [constructor|].
  inversion Hnd as [|? ? Hnotin Hnd']; subst.
  destruct (key_eqb (group_key c) k) eqn:E; simpl; [| now apply IH].
  constructor; [| now apply IH].
  intros Hin. apply in_map_iff in Hin. destruct Hin as (c' & Hd & Hc').
  apply filter_In in Hc'. destruct Hc' as [Hc' E'].
  apply key_eqb_eq in E, E'. apply Hnotin.
  apply in_map_iff. exists c'. split; [| exact Hc'].
  unfold group_key in E, E'. rewrite <- E in E'. inversion E'. congruence.
Qed.

(** C5, in general and at the failing input.  [build_feature_frequences]
    returns exactly when no group's sum of counts overflows 64 bits.  When
    it returns it leaves [feature_drive_counts] alone; every (feature, type)
    pair that has a per-drive row has exactly one frequency row, whose
    [drivecount] is the number of per-drive rows of the pair and whose
    [featurecount] is the sum of their counts; every frequency row belongs
    to a pair that has a per-drive row; and where no drive has two rows for
    one (type, feature), [drivecount] is the number of distinct drives of
    the pair.  It is not that number in general: after ingesting a report
    whose email histogram names one address twice (counts 2 and 3) and
    rebuilding, the address has [drivecount] 2 and [featurecount] 5 although
    a single drive holds it. *)
Theorem rebuild_frequencies :
  (forall s,
     (exists s', build_feature_frequences s = Ok (tt, s')) <->
     sums_fit (feature_drive_counts s) = true) /\
  (forall s s',
     build_feature_frequences s = Ok (tt, s') ->
     feature_drive_counts s' = feature_drive_counts s /\
     (forall c, In c (feature_drive_counts s) ->
        (exists r, In r (feature_frequencies s') /\
                   summarises (feature_drive_counts s) (group_key c) r) /\
        List.length (filter (fun r => key_eqb (freq_key r) (group_key c))
                            (feature_frequencies s')) = 1%nat) /\
     (forall r, In r (feature_frequencies s') ->
        summarises (feature_drive_counts s) (freq_key r) r /\
        exists c, In c (feature_drive_counts s) /\ group_key c = freq_key r) /\
     (one_row_per_drive (feature_drive_counts s) ->
      forall r, In r (feature_frequencies s') ->
        r_drivecount r =
        Z.of_nat (List.length (distinct_drives (freq_key r) (feature_drive_counts s))))) /\
  exists s',
    (ingest report_twice ;;; build_feature_frequences) empty_store = Ok (tt, s') /\
    drives s' = [mk_drive 1 "A" None] /\
    feature_drive_counts s' = [mk_count 1 EMAIL_TYPE 1 2; mk_count 1 EMAIL_TYPE 1 3] /\
    feature_frequencies s' = [mk_freq 1 EMAIL_TYPE 1 2 5] /\
    distinct_drives (1, EMAIL_TYPE) (feature_drive_counts s') = [1].
Proof.
  split; [| split].
  - intros s. rewrite build_feature_frequences_spec.
    destruct (sums_fit (feature_drive_counts s)); split.
    + reflexivity.
    + intros _. eexists. reflexivity.
    + intros [s' H]. discriminate.
    + discriminate.
  - intros s s' Hrun. apply build_feature_frequences_ok in Hrun.
    destruct Hrun as [_ ->]. simpl.
    set (rows := feature_drive_counts s).
    assert (Hsum : forall r, In r (frequency_rows (group_keys rows) rows []) ->
                     summarises rows (freq_key r) r /\ In (freq_key r) (group_keys rows)).
    { intros r Hr. apply frequency_rows_In in Hr.
      destruct Hr as [[] | (k & Hk & Hs)].
      assert (E : freq_key r = k).
      { destruct Hs as (Hf & Ht & _). unfold freq_key. rewrite Hf, Ht. now destruct k. }
      rewrite E. auto. }
    split; [reflexivity|]. split; [| split].
    + intros c Hc.
      assert (Hk : In (group_key c) (group_keys rows)) by (apply group_keys_In; eauto).
      split.
      * now apply frequency_rows_complete.
      * rewrite frequency_rows_count. simpl.
        apply NoDup_filter_one; [apply group_keys_NoDup | exact Hk].
    + intros r Hr. destruct (Hsum r Hr) as [Hs Hk]. split; [exact Hs|].
      now apply group_keys_In.
    + intros Hone r Hr. destruct (Hsum r Hr) as [(_ & _ & Hd & _) _].
      rewrite Hd. unfold distinct_drives.
      rewrite (nodup_fixed_point Z.eq_dec (group_drives_NoDup rows _ Hone)).
      now rewrite length_map.
  - eexists. split; [vm_compute; reflexivity|].
    repeat split; reflexivity.
Qed.

(** ** Correlation: the walk *)

Lemma also_on_spec (l : line) (ds : list Z) :
  forall t s,
    also_on l ds t s =
    Ok (tally (map (fun d => (d, l)) ds) t,
        with_stdout s (stdout s ++ map PrintAlso ds)).
Proof.
  induction ds as [|d ds IH]; intros t s; simpl.
  - unfold ret, with_stdout. rewrite app_nil_r. now destruct s.
  - unfold bind, print. rewrite IH. unfold with_stdout. simpl.
    now rewrite <- app_assoc.
Qed.

Lemma tally_app (e1 e2 : list (Z * line)) (t : tallies) :
  tally (e1 ++ e2) t = tally e2 (tally e1 t).
Proof. unfold tally. apply fold_left_app. Qed.

Lemma walk_spec (args : arguments) (driveid : Z) (res : list line) :
  forall t s,
    walk args driveid res t s =
    Ok (tally (contributions s driveid (walked (drive_threshold args) res)) t,
        with_stdout s (stdout s ++ walk_output s driveid (walked (drive_threshold args) res))).
Proof.
  induction res as [|l res IH]; intros t s.
  - simpl. unfold ret, with_stdout. rewrite app_nil_r. now destruct s.
  - cbn [walk walked]. unfold bind at 1. unfold print at 1.
    unfold bind at 1. unfold get at 1. unfold bind at 1.
    rewrite also_on_spec.
    change (other_drives
              (mk_store (drives s) (features s) (feature_drive_counts s)
                        (feature_frequencies s) _) (line_featureid l) driveid)
      with (other_drives s (line_featureid l) driveid).
    destruct (drive_threshold args <? line_drivecount l).
    + unfold ret, with_stdout, contributions, walk_output. simpl.
      rewrite !app_nil_r, <- app_assoc. reflexivity.
    + rewrite IH. unfold with_stdout, contributions, walk_output. simpl.
      rewrite tally_app, <- !app_assoc. reflexivity.
Qed.

Lemma dict_get_update {V} (k k' : Z) (f : V -> V) (d : list (Z * V)) :
  dict_get k (dict_update k' f d) =
  if k' =? k then option_map f (dict_get k d) else dict_get k d.
Proof.
  induction d as [|[k0 v] d IH]; simpl.
  - now destruct (k' =? k).
  - destruct (k0 =? k') eqn:E0; simpl.
    + apply Z.eqb_eq in E0. subst k0. now destruct (k' =? k).
    + rewrite IH. destruct (k0 =? k) eqn:E1; [| reflexivity].
      apply Z.eqb_eq in E1. subst k0.
      now rewrite Z.eqb_sym, E0.
Qed.

Lemma dict_get_app {V} (k k' : Z) (v : V) (d : list (Z * V)) :
  dict_get k (d ++ [(k', v)]) =
  match dict_get k d with
  | Some x => Some x
  | None => if k' =? k then Some v else None
  end.
Proof.
  induction d as [|[k0 v0] d IH]; simpl; [reflexivity|].
  now destruct (k0 =? k).
Qed.

Lemma dict_mem_get {V} (k : Z) (d : list (Z * V)) :
  dict_mem k d = match dict_get k d with Some _ => true | None => false end.
Proof.
  unfold dict_mem. induction d as [|[k0 v0] d IH]; simpl; [reflexivity|].
  now destruct (k0 =? k).
Qed.

Lemma add_contribution_coefs (l : line) (d' d : Z) (t : tallies) :
  dict_get d (coefs (add_contribution l d' t)) =
  if d' =? d
  then Some (PrimFloat.add
               (match dict_get d (coefs t) with Some c => c | None => 0%float end)
               (weight (line_drivecount l)))
  else dict_get d (coefs t).
Proof.
  unfold add_contribution. cbn [coefs]. rewrite dict_get_update.
  destruct (d' =? d) eqn:E.
  - apply Z.eqb_eq in E. subst d'. rewrite dict_mem_get.
    destruct (dict_get d (coefs t)) as [c|] eqn:G; cbn [coefs].
    + now rewrite G.
    + rewrite dict_get_app, G, Z.eqb_refl. reflexivity.
  - destruct (dict_mem d' (coefs t)); cbn [coefs]; [reflexivity|].
    rewrite dict_get_app, E. now destruct (dict_get d (coefs t)).
Qed.

Lemma tally_coefs (d : Z) (evs : list (Z * line)) :
  forall t,
    dict_get d (coefs (tally evs t)) =
    match weights_for d evs with
    | [] => dict_get d (coefs t)
    | ws => Some (float_sum
                    (match dict_get d (coefs t) with Some c => c | None => 0%float end) ws)
    end.
Proof.
  induction evs as [|[d' l] evs IH]; intros t; [reflexivity|].
  change (tally ((d', l) :: evs) t) with (tally evs (add_contribution l d' t)).
  rewrite IH, add_contribution_coefs. unfold weights_for. simpl.
  destruct (d' =? d); simpl; [| reflexivity].
  now destruct (map _ (filter _ evs)).
Qed.

Lemma other_drives_In (s : store) (featureid driveid d : Z) :
  In d (other_drives s featureid driveid) <->
  d <> driveid /\
  exists c, In c (feature_drive_counts s) /\ c_driveid c = d /\ c_featureid c = featureid.
Proof.
  unfold other_drives. rewrite in_map_iff. split.
  - intros (c & Hd & Hc). apply filter_In in Hc. destruct Hc as [Hc Hb].
    apply andb_prop in Hb. destruct Hb as [Hf Hn].
    apply Z.eqb_eq in Hf. apply negb_true_iff, Z.eqb_neq in Hn.
    split; [congruence | eauto].
  - intros (Hn & c & Hc & Hd & Hf). exists c. split; [exact Hd|].
    apply filter_In. split; [exact Hc|].
    apply andb_true_intro. split; [now apply Z.eqb_eq|].
    apply negb_true_iff, Z.eqb_neq. congruence.
Qed.

Lemma contributions_In (s : store) (driveid d : Z) (l : line) (ls : list line) :
  In (d, l) (contributions s driveid ls) <->
  In l ls /\ In d (other_drives s (line_featureid l) driveid).
Proof.
  unfold contributions. rewrite in_flat_map. split.
  - intros (l' & Hl' & Hin). apply in_map_iff in Hin.
    destruct Hin as (d' & E & Hd'). inversion E; subst. auto.
  - intros [Hl Hd]. exists l. split; [exact Hl|]. apply in_map_iff. eauto.
Qed.

(** C3, evaluated at the failing input and at the two-drive scenario.
    Drive A holds the address q; drives B, C and D hold q as a search term
    and nothing else.  After the rebuild the EMAIL frequency row of q has
    [drivecount] 1, so for EMAIL the feature is on one drive and ought to be
    dropped.  The join takes the SEARCH frequency row of the same feature id
    as well: the line survives with drive count 3, and B, C and D, which
    share no email address with A, are each scored [1.0/3].  In the
    two-drive scenario (A with x:5, y:2; B with y:3, z:1;
    rebuild), where every feature has one type, correlating A for EMAIL
    prints drive B with coefficient exactly 0.5. *)
Theorem correlation_scores :
  (exists s,
     (for_each cross_type_reports ingest ;;; build_feature_frequences) empty_store
       = Ok (tt, s) /\
     feature_drive_counts s =
       [mk_count 1 EMAIL_TYPE 1 1; mk_count 2 SEARCH_TYPE 1 1;
        mk_count 3 SEARCH_TYPE 1 1; mk_count 4 SEARCH_TYPE 1 1] /\
     map (fun r => (r_featureid r, r_drivecount r))
         (filter (fun r => r_feature_type r =? EMAIL_TYPE) (feature_frequencies s))
       = [(1, 1)] /\
     map (fun r => (r_featureid r, r_drivecount r))
         (filter (fun r => r_feature_type r =? SEARCH_TYPE) (feature_frequencies s))
       = [(1, 3)] /\
     output_of (correlate_for_type default_args 1 EMAIL_TYPE) s
       = Ok [PrintLine 3 1 "q"; PrintAlso 2; PrintAlso 3; PrintAlso 4;
             PrintDrive 2 "B"; PrintCorrelation (0 + 1 / 3)%float;
             PrintContrib (1 / 3)%float "q"; PrintText "";
             PrintDrive 3 "C"; PrintCorrelation (0 + 1 / 3)%float;
             PrintContrib (1 / 3)%float "q"; PrintText "";
             PrintDrive 4 "D"; PrintCorrelation (0 + 1 / 3)%float;
             PrintContrib (1 / 3)%float "q"; PrintText ""]) /\
  (ingest report_A ;;; ingest report_B ;;; build_feature_frequences) empty_store
    = Ok (tt, two_drives) /\
  output_of (correlate_for_type default_args 1 EMAIL_TYPE) two_drives
    = Ok [PrintLine 2 2 "y"; PrintAlso 2;
          PrintDrive 2 "B"; PrintCorrelation 0.5%float; PrintContrib 0.5%float "y";
          PrintText ""].
Proof.
  split; [| split; vm_compute; reflexivity].
  eexists. split; [vm_compute; reflexivity|].
  repeat split; vm_compute; reflexivity.
Qed.

(** ** Correlation: order and early stop *)

Lemma insert_sorted_In {A} (before : A -> A -> bool) (x z : A) (l : list A) :
  In z (insert_sorted before x l) <-> z = x \/ In z l.
Proof.
  induction l as [|y l IH]; simpl; [intuition|].
  destruct (before y x); simpl; [rewrite IH|]; intuition.
Qed.

Lemma StronglySorted_filter {A} (R : A -> A -> Prop) (p : A -> bool) (l : list A) :
  StronglySorted R l -> StronglySorted R (filter p l).
Proof.
  induction 1 as [|x l Hs IH Hall]; simpl; [constructor|].
  destruct (p x); [| exact IH].
  constructor; [exact IH|].
  apply Forall_forall. intros z Hz. apply filter_In in Hz.
  exact (proj1 (Forall_forall _ _) Hall z (proj1 Hz)).
Qed.

Lemma insert_sorted_perm {A} (before : A -> A -> bool) (x : A) (l : list A) :
  Permutation (insert_sorted before x l) (x :: l).
Proof.
  induction l as [|y l IH]; simpl; [apply Permutation_refl|].
  destruct (before y x); [| apply Permutation_refl].
  eapply Permutation_trans; [apply perm_skip, IH | apply perm_swap].
Qed.

Lemma sorted_perm {A} (before : A -> A -> bool) (l : list A) :
  Permutation (sorted before l) l.
Proof.
  induction l as [|x l IH]; simpl; [apply Permutation_refl|].
  eapply Permutation_trans; [apply insert_sorted_perm | now apply perm_skip].
Qed.

Lemma filter_perm {A} (p : A -> bool) (l l' : list A) :
  Permutation l l' -> Permutation (filter p l) (filter p l').
Proof.
  induction 1 as [| x l l' _ IH | x y l | l l' l'' _ IH1 _ IH2]; simpl.
  - apply Permutation_refl.
  - destruct (p x); [now apply perm_skip | exact IH].
  - destruct (p x), (p y); try apply Permutation_refl. apply perm_swap.
  - eapply Permutation_trans; eassumption.
Qed.

Lemma insert_sorted_sorted {A} (R : A -> A -> Prop) (before : A -> A -> bool)
      (x : A) (l : list A) :
  (forall a b, before a b = true -> R a b) ->
  (forall a b, before a b = false -> R b a) ->
  (forall a b c, R a b -> R b c -> R a c) ->
  StronglySorted R l -> StronglySorted R (insert_sorted before x l).
Proof.
  intros Hlt Hge Htrans. induction 1 as [|y l Hs IH Hall]; simpl.
  - constructor; constructor.
  - destruct (before y x) eqn:E.
    + constructor; [exact IH|].
      apply Forall_forall. intros z Hz. apply insert_sorted_In in Hz.
      destruct Hz as [-> | Hz]; [now apply Hlt|].
      exact (proj1 (Forall_forall _ _) Hall z Hz).
    + apply Hge in E. constructor; [now constructor|].
      constructor; [exact E|].
      apply Forall_forall. intros z Hz.
      exact (Htrans _ _ _ E (proj1 (Forall_forall _ _) Hall z Hz)).
Qed.

Lemma candidate_lines_sorted (s : store) (driveid feature_type : Z) :
  StronglySorted line_le (candidate_lines s driveid feature_type).
Proof.
  unfold candidate_lines. apply StronglySorted_filter.
  induction (select_lines s driveid feature_type) as [|x l IH]; simpl; [constructor|].
  apply insert_sorted_sorted; [| | | exact IH].
  - intros a b. unfold line_ltb, line_le.
    destruct (line_drivecount a =? line_drivecount b) eqn:E1.
    + apply Z.eqb_eq in E1.
      destruct (line_featureid a =? line_featureid b) eqn:E2.
      * apply Z.eqb_eq in E2. intros _. right. lia.
      * intros H. apply Z.ltb_lt in H. right. lia.
    + intros H. apply Z.ltb_lt in H. now left.
  - intros a b. unfold line_ltb, line_le.
    destruct (line_drivecount a =? line_drivecount b) eqn:E1.
    + apply Z.eqb_eq in E1.
      destruct (line_featureid a =? line_featureid b) eqn:E2.
      * apply Z.eqb_eq in E2. intros _. right. lia.
      * intros H. apply Z.ltb_ge in H. right. lia.
    + apply Z.eqb_neq in E1. intros H. apply Z.ltb_ge in H. left. lia.
  - intros a b c. unfold line_le. lia.
Qed.




(** ** Correlation across feature types *)

(** C2, evaluated at the failing input.  Two stores that agree on every
    EMAIL row of the per-drive counts and of the frequencies, and differ
    only in SEARCH rows, give different EMAIL correlations for drive A: in
    the second store the frequency row of the search term is joined in as a
    second line, and the drives C and D, which hold the feature only as a
    search term, are scored; drive B's coefficient becomes 1 instead of
    0.5. *)
Theorem correlate_mixes_types :
  exists s1 s2,
    (for_each email_reports ingest ;;; build_feature_frequences) empty_store
      = Ok (tt, s1) /\
    (for_each (email_reports ++ search_reports) ingest ;;; build_feature_frequences)
      empty_store = Ok (tt, s2) /\
    agree_on_type EMAIL_TYPE s1 s2 /\
    output_of (correlate_for_type default_args 1 EMAIL_TYPE) s1
      = Ok [PrintLine 2 1 "q"; PrintAlso 2;
            PrintDrive 2 "B"; PrintCorrelation 0.5%float; PrintContrib 0.5%float "q";
            PrintText ""] /\
    output_of (correlate_for_type default_args 1 EMAIL_TYPE) s2
      = Ok [PrintLine 2 1 "q"; PrintAlso 2; PrintAlso 3; PrintAlso 4;
            PrintLine 2 1 "q"; PrintAlso 2; PrintAlso 3; PrintAlso 4;
            PrintDrive 2 "B"; PrintCorrelation 1%float;
            PrintContrib 0.5%float "q"; PrintContrib 0.5%float "q"; PrintText "";
            PrintDrive 3 "C"; PrintCorrelation 1%float;
            PrintContrib 0.5%float "q"; PrintContrib 0.5%float "q"; PrintText "";
            PrintDrive 4 "D"; PrintCorrelation 1%float;
            PrintContrib 0.5%float "q"; PrintContrib 0.5%float "q"; PrintText ""] /\
    output_of (correlate_for_type default_args 1 EMAIL_TYPE) s1 <>
    output_of (correlate_for_type default_args 1 EMAIL_TYPE) s2.
Proof.
  eexists _, _. split; [vm_compute; reflexivity|].
  split; [vm_compute; reflexivity|].
  split; [split; vm_compute; reflexivity|].
  split; [vm_compute; reflexivity|].
  split; [vm_compute; reflexivity|].
  vm_compute. discriminate.
Qed.

(** * Further properties of the code *)

(** ** Drives *)

Lemma existsb_name_In (name : string) (ds : list drive_row) :
  existsb (fun d => String.eqb (d_drivename d) name) ds = true <->
  In name (map d_drivename ds).
Proof.
  rewrite existsb_exists, in_map_iff. split.
  - intros (d & Hd & E). apply String.eqb_eq in E. eauto.
  - intros (d & E & Hd). exists d. split; [exact Hd | now apply String.eqb_eq].
Qed.


Lemma filter_none {A} (p : A -> bool) (l : list A) :
  (forall x, In x l -> p x = false) -> filter p l = [].
Proof.
  induction l as [|a l IH]; intros H; simpl; [reflexivity|].
  rewrite (H a (or_introl eq_refl)). apply IH. intros x Hx. apply H. now right.
Qed.



(** ** Frequency aggregation, continued *)

(** X3.  A rebuild depends on the per-drive counts alone.  Whenever a
    rebuild returns, a second rebuild without an ingest in between returns
    too and leaves the frequency table exactly as the first one did,
    whatever the table held before; no other table changes. *)
Theorem rebuild_idempotent (s s1 : store) :
  build_feature_frequences s = Ok (tt, s1) ->
  exists s2,
    build_feature_frequences s1 = Ok (tt, s2) /\
    feature_frequencies s2 = feature_frequencies s1 /\
    drives s2 = drives s /\ features s2 = features s /\
    feature_drive_counts s2 = feature_drive_counts s /\
    forall s0, feature_drive_counts s0 = feature_drive_counts s ->
      exists s0', build_feature_frequences s0 = Ok (tt, s0') /\
                  feature_frequencies s0' = feature_frequencies s1.
Proof.
  intros Hrun. apply build_feature_frequences_ok in Hrun. destruct Hrun as [Hfit ->].
  eexists. split.
  { rewrite build_feature_frequences_spec. simpl. rewrite Hfit. reflexivity. }
  simpl. repeat split.
  intros s0 H. eexists. split.
  { rewrite build_feature_frequences_spec, H, Hfit. reflexivity. }
  reflexivity.
Qed.

Lemma rebuild_idempotent_witness :
  exists s2,
    build_feature_frequences
      (with_stdout two_drives
         (stdout two_drives ++ [PrintText "Building feature frequences...";
                                PrintText "Feature frequences built."])) = Ok (tt, s2) /\
    feature_frequencies s2 =
      feature_frequencies
        (with_stdout two_drives
           (stdout two_drives ++ [PrintText "Building feature frequences...";
                                  PrintText "Feature frequences built."])) /\
    drives s2 = drives two_drives /\ features s2 = features two_drives /\
    feature_drive_counts s2 = feature_drive_counts two_drives /\
    forall s0, feature_drive_counts s0 = feature_drive_counts two_drives ->
      exists s0', build_feature_frequences s0 = Ok (tt, s0') /\
                  feature_frequencies s0' =
                    feature_frequencies
                      (with_stdout two_drives
                         (stdout two_drives ++ [PrintText "Building feature frequences...";
                                                PrintText "Feature frequences built."])).
Proof.
  apply (rebuild_idempotent two_drives). vm_compute. reflexivity.
Defined.

Lemma frequency_rows_map (f : freq_row -> Z) (g : Z * Z -> Z)
      (rows : list count_row) (keys : list (Z * Z)) :
  (forall k id, f (mk_freq id (snd k) (fst k)
                     (Z.of_nat (List.length (group_rows k rows)))
                     (sum_Z (map c_count (group_rows k rows)))) = g k) ->
  forall acc,
    map f (frequency_rows keys rows acc) = map f acc ++ map g keys.
Proof.
  intros Hfg. induction keys as [|k keys IH]; intros acc; simpl.
  - now rewrite app_nil_r.
  - rewrite IH, map_app, <- app_assoc. simpl. now rewrite Hfg.
Qed.

Lemma sum_Z_filter_split {A} (g : A -> Z) (p : A -> bool) (l : list A) :
  sum_Z (map g l) = sum_Z (map g (filter p l)) + sum_Z (map g (filter (fun x => negb (p x)) l)).
Proof.
  induction l as [|a l IH]; simpl; [reflexivity|].
  destruct (p a); simpl; lia.
Qed.

Lemma sum_Z_ext_in {A} (g h : A -> Z) (l : list A) :
  (forall x, In x l -> g x = h x) -> sum_Z (map g l) = sum_Z (map h l).
Proof.
  intros H. induction l as [|a l IH]; simpl; [reflexivity|].
  rewrite (H a (or_introl eq_refl)), IH; [reflexivity|].
  intros x Hx. apply H. now right.
Qed.

(** The groups partition the rows: group totals add up to the grand total. *)
Lemma group_totals (w : count_row -> Z) (rows : list count_row) :
  sum_Z (map (fun k => sum_Z (map w (group_rows k rows))) (group_keys rows)) =
  sum_Z (map w rows).
Proof.
  induction rows as [|c rows IH]; [reflexivity|].
  cbn [group_keys map sum_Z fold_right].
  change (fold_right Z.add 0) with sum_Z.
  unfold group_rows at 1. cbn [filter]. rewrite key_eqb_refl. cbn [map sum_Z fold_right].
  change (fold_right Z.add 0) with sum_Z.
  fold (group_rows (group_key c) rows).
  rewrite <- IH.
  rewrite (sum_Z_filter_split (fun k => sum_Z (map w (group_rows k rows)))
             (fun k => key_eqb k (group_key c)) (group_keys rows)).
  assert (Hsame :
    sum_Z (map (fun k => sum_Z (map w (group_rows k (c :: rows))))
               (filter (fun k => negb (key_eqb k (group_key c))) (group_keys rows))) =
    sum_Z (map (fun k => sum_Z (map w (group_rows k rows)))
               (filter (fun k => negb (key_eqb k (group_key c))) (group_keys rows)))).
  { apply sum_Z_ext_in. intros k Hk. apply filter_In in Hk. destruct Hk as [_ Hk].
    unfold group_rows. cbn [filter].
    destruct (key_eqb (group_key c) k) eqn:E; [| reflexivity].
    apply key_eqb_eq in E. subst k. now rewrite key_eqb_refl in Hk. }
  rewrite Hsame.
  assert (Hone :
    sum_Z (map (fun k => sum_Z (map w (group_rows k rows)))
               (filter (fun k => key_eqb k (group_key c)) (group_keys rows))) =
    sum_Z (map w (group_rows (group_key c) rows))).
  { destruct (filter (fun k => key_eqb k (group_key c)) (group_keys rows))
      as [|k l] eqn:F.
    - simpl. unfold group_rows. rewrite filter_none; [reflexivity|].
      intros x Hx. destruct (key_eqb (group_key x) (group_key c)) eqn:E; [| reflexivity].
      exfalso.
      assert (Hin : In (group_key x)
                       (filter (fun k => key_eqb k (group_key c)) (group_keys rows))).
      { apply filter_In. split; [| exact E]. apply group_keys_In. eauto. }
      rewrite F in Hin. contradiction.
    - assert (Hk : In k (filter (fun k => key_eqb k (group_key c)) (group_keys rows)))
        by (rewrite F; now left).
      apply filter_In in Hk. destruct Hk as [Hin Hk]. apply key_eqb_eq in Hk. subst k.
      pose proof (NoDup_filter_one _ _ (group_keys_NoDup rows) Hin) as Hlen.
      rewrite F in Hlen. destruct l; [| discriminate Hlen].
      simpl. lia. }
  rewrite Hone. lia.
Qed.

Lemma sum_Z_filter_le {A} (g : A -> Z) (p : A -> bool) (l : list A) :
  (forall x, In x l -> 0 <= g x) -> 0 <= sum_Z (map g (filter p l)) <= sum_Z (map g l).
Proof.
  induction l as [|a l IH]; intros H; simpl; [lia|].
  assert (Ha : 0 <= g a) by (apply H; now left).
  assert (Hl : 0 <= sum_Z (map g (filter p l)) <= sum_Z (map g l))
    by (apply IH; intros x Hx; apply H; now right).
  destruct (p a); simpl; lia.
Qed.

Lemma sum_from_fits (l : list Z) :
  forall acc,
    0 <= acc -> (forall x, In x l -> 0 <= x) ->
    acc + sum_Z l <= 9223372036854775807 ->
    sum_from acc l = Some (acc + sum_Z l).
Proof.
  induction l as [|x l IH]; intros acc Hacc Hpos Hle; simpl in *.
  - f_equal. lia.
  - assert (Hx : 0 <= x) by (apply Hpos; now left).
    assert (Hl : 0 <= sum_Z l).
    { clear -Hpos. induction l as [|y l IH]; simpl; [lia|].
      assert (0 <= y) by (apply Hpos; right; now left).
      assert (0 <= sum_Z l) by (apply IH; intros z [Hz | Hz]; apply Hpos; auto; right; now right).
      lia. }
    assert (Hfit : fits_int64 (acc + x) = true).
    { unfold fits_int64. apply andb_true_iff. split; apply Z.leb_le; lia. }
    rewrite Hfit. rewrite IH; [f_equal; lia | lia | auto | lia].
Qed.

(** Counts as the reader yields them are not negative; then the rebuild
    needs no more than a grand total within 64 bits. *)
Lemma sums_fit_nonneg (rows : list count_row) :
  (forall c, In c rows -> 0 <= c_count c) ->
  sum_Z (map c_count rows) <= 9223372036854775807 ->
  sums_fit rows = true.
Proof.
  intros Hpos Hle. unfold sums_fit. apply forallb_forall. intros k _.
  unfold sql_sum, group_rows.
  pose proof (sum_Z_filter_le c_count (fun c => key_eqb (group_key c) k) rows Hpos) as Hg.
  rewrite sum_from_fits; [reflexivity | lia | | lia].
  intros x Hx. apply in_map_iff in Hx. destruct Hx as (c & <- & Hc).
  apply filter_In in Hc. apply Hpos, Hc.
Qed.

(** X4.  A rebuild loses and invents nothing.  It returns whenever no count
    is negative and the counts add up to at most [2^63 - 1]; whenever it
    returns, the feature counts of the frequency rows add up to the sum of
    all per-drive counts, and their drive counts add up to the number of
    per-drive rows.  Past 64 bits it raises: two rows of one feature with
    counts [2^63 - 1] and 1 end the rebuild in "integer overflow". *)
Theorem rebuild_conserves_totals :
  (forall s,
     (forall c, In c (feature_drive_counts s) -> 0 <= c_count c) ->
     sum_Z (map c_count (feature_drive_counts s)) <= 9223372036854775807 ->
     exists s', build_feature_frequences s = Ok (tt, s')) /\
  (forall s s',
     build_feature_frequences s = Ok (tt, s') ->
     sum_Z (map r_featurecount (feature_frequencies s')) =
       sum_Z (map c_count (feature_drive_counts s)) /\
     sum_Z (map r_drivecount (feature_frequencies s')) =
       Z.of_nat (List.length (feature_drive_counts s))) /\
  build_feature_frequences
    (mk_store [mk_drive 1 "A" None; mk_drive 2 "B" None] [mk_feature 1 "x"]
              [mk_count 1 EMAIL_TYPE 1 9223372036854775807; mk_count 2 EMAIL_TYPE 1 1]
              [] [])
  = Raise (OperationalError "integer overflow").
Proof.
  split; [| split].
  - intros s Hpos Hle. rewrite build_feature_frequences_spec.
    rewrite (sums_fit_nonneg _ Hpos Hle). eexists. reflexivity.
  - intros s s' Hrun. apply build_feature_frequences_ok in Hrun.
    destruct Hrun as [_ ->]. simpl. split.
    + rewrite (frequency_rows_map r_featurecount
                 (fun k => sum_Z (map c_count (group_rows k (feature_drive_counts s)))));
        [| reflexivity].
      apply group_totals.
    + rewrite (frequency_rows_map r_drivecount
                 (fun k => sum_Z (map (fun _ => 1) (group_rows k (feature_drive_counts s))))).
      * simpl. rewrite group_totals.
        induction (feature_drive_counts s) as [|c l IH]; [reflexivity|].
        cbn [map sum_Z fold_right List.length]. change (fold_right Z.add 0) with sum_Z.
        rewrite IH. lia.
      * intros k id. simpl.
        induction (group_rows k (feature_drive_counts s)) as [|c l IH]; [reflexivity|].
        cbn [map sum_Z fold_right List.length]. change (fold_right Z.add 0) with sum_Z.
        rewrite <- IH. lia.
  - vm_compute. reflexivity.
Qed.

(** ** Correlation: the report loop *)

Lemma for_each_print {A} (f : A -> out_line) (xs : list A) :
  forall s,
    for_each xs (fun x => print (f x)) s =
    Ok (tt, with_stdout s (stdout s ++ map f xs)).
Proof.
  induction xs as [|x xs IH]; intros s; simpl.
  - unfold ret, with_stdout. rewrite app_nil_r. now destruct s.
  - unfold bind, print. rewrite IH. unfold with_stdout. simpl.
    now rewrite <- app_assoc.
Qed.

Lemma add_contribution_contribs (l : line) (d' d : Z) (t : tallies) :
  (dict_get d (contribs t) = None <-> dict_get d (coefs t) = None) ->
  (dict_get d (contribs (add_contribution l d' t)) = None <->
   dict_get d (coefs (add_contribution l d' t)) = None).
Proof.
  intros Hinv. unfold add_contribution. cbn [coefs contribs].
  rewrite !dict_get_update.
  destruct (dict_mem d' (coefs t)) eqn:M; cbn [coefs contribs].
  - destruct (d' =? d) eqn:E; [| exact Hinv].
    apply Z.eqb_eq in E. subst d'. rewrite dict_mem_get in M.
    destruct (dict_get d (coefs t)) eqn:G; [| discriminate].
    destruct (dict_get d (contribs t)) eqn:G'; simpl.
    + split; discriminate.
    + exfalso. destruct Hinv as [Hinv _]. specialize (Hinv eq_refl). discriminate.
  - rewrite !dict_get_app. destruct (d' =? d) eqn:E.
    + destruct (dict_get d (contribs t)), (dict_get d (coefs t)); simpl; split; discriminate.
    + destruct (dict_get d (contribs t)), (dict_get d (coefs t)); simpl; tauto.
Qed.

Lemma tally_keys (d : Z) (evs : list (Z * line)) :
  forall t,
    (dict_get d (contribs t) = None <-> dict_get d (coefs t) = None) ->
    (dict_get d (contribs (tally evs t)) = None <->
     dict_get d (coefs (tally evs t)) = None).
Proof.
  induction evs as [|[d' l] evs IH]; intros t Hinv; [exact Hinv|].
  change (tally ((d', l) :: evs) t) with (tally evs (add_contribution l d' t)).
  apply IH. now apply add_contribution_contribs.
Qed.

Lemma dict_get_In {V} (k : Z) (v : V) (d : list (Z * V)) :
  In (k, v) d -> dict_get k d <> None.
Proof.
  induction d as [|[k0 v0] d IH]; simpl; [tauto|].
  intros [H | H].
  - inversion H; subst. now rewrite Z.eqb_refl.
  - destruct (k0 =? k); [discriminate | auto].
Qed.

Lemma print_run (l : out_line) (s : store) :
  print l s = Ok (tt, with_stdout s (stdout s ++ [l])).
Proof. reflexivity. Qed.

Lemma emit_drive_spec (t : tallies) (e : Z * float) (s : store) :
  dict_get (fst e) (contribs t) <> None ->
  emit_drive t e s =
  match drive_block s t e with
  | Some b => Ok (tt, with_stdout s (stdout s ++ b))
  | None => Raise (TypeError "'NoneType' object is not subscriptable")
  end.
Proof.
  intros Hc. unfold emit_drive, drive_block, drive_name, get_drivename.
  unfold bind at 1. unfold bind at 1. unfold get at 1.
  destruct (filter (fun r => d_driveid r =? fst e) (drives s)) as [|r rs]; [reflexivity|].
  unfold ret at 1.
  destruct (dict_get (fst e) (contribs t)) as [cs|]; [| contradiction].
  unfold bind. rewrite !print_run, for_each_print, print_run.
  unfold with_stdout, contrib_lines. cbn.
  now rewrite <- !app_assoc.
Qed.

Lemma drive_blocks_stdout (s : store) (out : list out_line) (t : tallies)
      (entries : list (Z * float)) :
  drive_blocks (with_stdout s out) t entries = drive_blocks s t entries.
Proof.
  induction entries as [|e entries IH]; [reflexivity|].
  cbn [drive_blocks]. rewrite IH. reflexivity.
Qed.

Lemma emit_all_spec (t : tallies) (entries : list (Z * float)) :
  (forall e, In e entries -> dict_get (fst e) (contribs t) <> None) ->
  forall s,
    for_each entries (emit_drive t) s =
    match drive_blocks s t entries with
    | Some bs => Ok (tt, with_stdout s (stdout s ++ bs))
    | None => Raise (TypeError "'NoneType' object is not subscriptable")
    end.
Proof.
  induction entries as [|e entries IH]; intros Hk s.
  - simpl. unfold ret, with_stdout. rewrite app_nil_r. now destruct s.
  - cbn [for_each drive_blocks]. unfold bind.
    rewrite emit_drive_spec by (apply Hk; now left).
    destruct (drive_block s t e) as [b|] eqn:B; [| reflexivity].
    rewrite IH by (intros e' He'; apply Hk; now right).
    rewrite drive_blocks_stdout.
    destruct (drive_blocks s t entries) as [bs|]; [| reflexivity].
    unfold with_stdout. cbn. now rewrite <- app_assoc.
Qed.

Lemma sorted_In {A} (before : A -> A -> bool) (z : A) (l : list A) :
  In z (sorted before l) <-> In z l.
Proof.
  induction l as [|x l IH]; simpl; [tauto|].
  rewrite insert_sorted_In, IH. intuition.
Qed.

Lemma final_tallies_keys (args : arguments) (s : store) (driveid feature_type : Z)
      (e : Z * float) :
  In e (ranking (final_tallies args s driveid feature_type)) ->
  dict_get (fst e) (contribs (final_tallies args s driveid feature_type)) <> None /\
  fst e <> driveid /\
  exists c, In c (feature_drive_counts s) /\ c_driveid c = fst e.
Proof.
  intros He. unfold ranking in He. apply sorted_In in He.
  destruct e as [d c]. apply dict_get_In in He. cbn [fst].
  split.
  - intros Hn. apply He. unfold final_tallies in *.
    apply (tally_keys d _ (mk_tallies [] [])); [simpl; tauto | exact Hn].
  - unfold final_tallies in He. rewrite tally_coefs in He. cbn [coefs dict_get] in He.
    unfold weights_for in He.
    destruct (filter (fun e => fst e =? d) _) as [|[d' l] evs] eqn:F; [now simpl in He|].
    assert (Hin : In (d', l) (filter (fun e => fst e =? d)
              (contributions s driveid
                 (walked (drive_threshold args) (candidate_lines s driveid feature_type)))))
      by (rewrite F; now left).
    apply filter_In in Hin. destruct Hin as [Hin Hd]. cbn [fst] in Hd.
    apply Z.eqb_eq in Hd. subst d'.
    apply contributions_In in Hin. destruct Hin as [_ Hin].
    apply other_drives_In in Hin. destruct Hin as (Hne & c0 & Hc0 & Hd0 & _). eauto.
Qed.

(** [correlate_for_type] in closed form: it prints the walked lines
    with the drives found for each, then one block per scored drive in
    ranking order, and changes nothing but the printed output; it raises
    (the [None] subscript of [get_drivename]) exactly when some scored drive
    has no row in [drives]. *)
Lemma correlate_closed_form (args : arguments) (s : store) (driveid feature_type : Z) :
  let t := final_tallies args s driveid feature_type in
  correlate_for_type args driveid feature_type s =
  match drive_blocks s t (ranking t) with
  | Some blocks =>
      Ok (tt, with_stdout s
                (stdout s ++
                 walk_output s driveid
                   (walked (drive_threshold args) (candidate_lines s driveid feature_type)) ++
                 blocks))
  | None => Raise (TypeError "'NoneType' object is not subscriptable")
  end.
Proof.
  intros t. unfold correlate_for_type. unfold bind at 1. unfold get at 1.
  unfold bind at 1. rewrite walk_spec. fold (final_tallies args s driveid feature_type).
  fold t. fold (ranking t).
  rewrite emit_all_spec by (intros e He; now apply final_tallies_keys in He).
  rewrite drive_blocks_stdout.
  destruct (drive_blocks s t (ranking t)); [| reflexivity].
  unfold with_stdout. cbn. now rewrite <- app_assoc.
Qed.

Lemma drive_blocks_some (s : store) (t : tallies) (entries : list (Z * float)) :
  (forall e, In e entries -> drive_block s t e <> None) ->
  drive_blocks s t entries <> None.
Proof.
  induction entries as [|e entries IH]; intros H; simpl; [discriminate|].
  destruct (drive_block s t e) eqn:B;
    [| exfalso; apply (H e (or_introl eq_refl)); exact B].
  destruct (drive_blocks s t entries) eqn:Bs; [discriminate|].
  exfalso. apply IH; [| reflexivity]. intros e' He'. apply H. now right.
Qed.

Lemma drive_blocks_none (s : store) (t : tallies) (entries : list (Z * float)) :
  drive_blocks s t entries = None ->
  exists e, In e entries /\ drive_block s t e = None.
Proof.
  induction entries as [|e entries IH]; simpl; [discriminate|].
  destruct (drive_block s t e) eqn:B; [| intros _; exists e; auto].
  destruct (drive_blocks s t entries); [discriminate|].
  intros _. destruct (IH eq_refl) as (e' & He' & Be'). eauto.
Qed.

Lemma drive_name_some (s : store) (d : Z) :
  In d (map d_driveid (drives s)) <-> drive_name s d <> None.
Proof.
  unfold drive_name. split.
  - intros H. apply in_map_iff in H. destruct H as (r & E & Hr).
    assert (Hin : In r (filter (fun r => d_driveid r =? d) (drives s)))
      by (apply filter_In; split; [exact Hr | now apply Z.eqb_eq]).
    destruct (filter _ (drives s)); [contradiction | discriminate].
  - destruct (filter (fun r => d_driveid r =? d) (drives s)) as [|r rs] eqn:F; [tauto|].
    intros _.
    assert (Hin : In r (filter (fun r => d_driveid r =? d) (drives s)))
      by (rewrite F; now left).
    apply filter_In in Hin. destruct Hin as [Hin E]. apply Z.eqb_eq in E.
    apply in_map_iff. eauto.
Qed.


Lemma correlate_total (args : arguments) (s : store) (driveid feature_type : Z) :
  referential s ->
  exists out, correlate_for_type args driveid feature_type s =
              Ok (tt, with_stdout s (stdout s ++ out)).
Proof.
  intros Href. rewrite correlate_closed_form. cbv zeta.
  set (t := final_tallies args s driveid feature_type).
  destruct (drive_blocks s t (ranking t)) eqn:B; [eauto|].
  exfalso. revert B. apply drive_blocks_some. intros e He.
  apply final_tallies_keys in He. destruct He as (Hc & _ & c & Hin & Hd).
  fold t in Hc. unfold drive_block.
  assert (Hn : drive_name s (fst e) <> None)
    by (apply drive_name_some; rewrite <- Hd; now apply Href).
  destruct (drive_name s (fst e)); [| contradiction].
  destruct (dict_get (fst e) (contribs t)); [discriminate | contradiction].
Qed.

(** X6.  When [correlate_for_type] returns, the four tables are as before
    and the printed output has only grown.  It returns on every store in
    which each per-drive row names a registered drive.  When it raises, the
    exception is the [None] subscript of [get_drivename], and some
    per-drive row of another drive names a drive that is not registered. *)
Theorem correlate_for_type_returns (args : arguments) (s : store) (driveid feature_type : Z) :
  (forall u s', correlate_for_type args driveid feature_type s = Ok (u, s') ->
     exists out, s' = with_stdout s (stdout s ++ out)) /\
  (referential s ->
     exists out, correlate_for_type args driveid feature_type s =
                 Ok (tt, with_stdout s (stdout s ++ out))) /\
  (forall e, correlate_for_type args driveid feature_type s = Raise e ->
     e = TypeError "'NoneType' object is not subscriptable" /\
     exists c, In c (feature_drive_counts s) /\ c_driveid c <> driveid /\
               ~ In (c_driveid c) (map d_driveid (drives s))).
Proof.
  pose proof (correlate_closed_form args s driveid feature_type) as Hspec.
  cbv zeta in Hspec.
  set (t := final_tallies args s driveid feature_type) in *.
  split; [| split].
  - intros u s' H. rewrite Hspec in H.
    destruct (drive_blocks s t (ranking t)); [| discriminate].
    inversion H; subst. eauto.
  - intros Href. now apply correlate_total.
  - intros e H. rewrite Hspec in H.
    destruct (drive_blocks s t (ranking t)) eqn:B; [discriminate|].
    inversion H; subst. split; [reflexivity|].
    apply drive_blocks_none in B. destruct B as (e & He & Be).
    apply final_tallies_keys in He. destruct He as (Hc & Hne & c & Hin & Hd).
    fold t in Hc.
    exists c. split; [exact Hin|]. split; [congruence|].
    rewrite Hd. intros Hreg. apply drive_name_some in Hreg.
    unfold drive_block in Be.
    destruct (drive_name s (fst e)); [| contradiction].
    destruct (dict_get (fst e) (contribs t)); [discriminate | contradiction].
Qed.

Lemma correlate_for_type_returns_witness :
  exists out,
    correlate_for_type default_args 1 EMAIL_TYPE two_drives =
    Ok (tt, with_stdout two_drives (stdout two_drives ++ out)).
Proof.
  apply (proj1 (proj2 (correlate_for_type_returns default_args two_drives 1 EMAIL_TYPE))).
  intros c Hc. simpl in Hc. simpl.
  repeat (destruct Hc as [<- | Hc]; [simpl; tauto|]). contradiction.
Defined.

Lemma walk_output_In (s : store) (driveid : Z) (ls : list line) (o : out_line) :
  In o (walk_output s driveid ls) ->
  (exists l, In l ls /\
             o = PrintLine (line_drivecount l) (line_featureid l) (line_feature l)) \/
  (exists l d, In l ls /\ In d (other_drives s (line_featureid l) driveid) /\
               o = PrintAlso d).
Proof.
  unfold walk_output. rewrite in_flat_map. intros (l & Hl & [Ho | Ho]).
  - left. eauto.
  - right. apply in_map_iff in Ho. destruct Ho as (d & E & Hd). eauto.
Qed.

Lemma drive_blocks_In (s : store) (t : tallies) (entries : list (Z * float))
      (bs : list out_line) (o : out_line) :
  drive_blocks s t entries = Some bs -> In o bs ->
  (exists e name, In e entries /\ o = PrintDrive (fst e) name) \/
  (exists e, In e entries /\ o = PrintCorrelation (snd e)) \/
  (exists w f, o = PrintContrib w f) \/ o = PrintText "".
Proof.
  revert bs. induction entries as [|e entries IH]; intros bs; simpl.
  - intros H. inversion H. contradiction.
  - destruct (drive_block s t e) as [b|] eqn:B; [| discriminate].
    destruct (drive_blocks s t entries) as [bs'|]; [| discriminate].
    intros H Ho. inversion H; subst bs. apply in_app_or in Ho. destruct Ho as [Ho | Ho].
    + unfold drive_block in B.
      destruct (drive_name s (fst e)) as [name|]; [| discriminate].
      destruct (dict_get (fst e) (contribs t)) as [cs|]; [| discriminate].
      inversion B; subst b. simpl in Ho.
      destruct Ho as [<- | [<- | Ho]].
      * left. exists e, name. auto.
      * right. left. exists e. auto.
      * apply in_app_or in Ho. destruct Ho as [Ho | [<- | []]].
        -- unfold contrib_lines in Ho. apply in_map_iff in Ho.
           destruct Ho as (c & <- & _). right. right. left. eauto.
        -- right. right. right. reflexivity.
    + destruct (IH bs' eq_refl Ho) as [(e' & n & He' & E) | [(e' & He' & E) | H']].
      * left. exists e', n. auto.
      * right. left. exists e'. auto.
      * right. right. exact H'.
Qed.

(** X7.  [correlate_for_type] never scores the target drive against
    itself: whatever the store holds, the output names the target neither
    among the drives a feature is "also on" nor among the correlated
    drives. *)
Theorem correlate_never_scores_target (args : arguments) (s : store)
        (driveid feature_type : Z) (out : list out_line) :
  output_of (correlate_for_type args driveid feature_type) s = Ok out ->
  ~ In (PrintAlso driveid) out /\ forall name, ~ In (PrintDrive driveid name) out.
Proof.
  unfold output_of. rewrite correlate_closed_form. cbv zeta.
  set (s0 := mk_store (drives s) (features s) (feature_drive_counts s)
                      (feature_frequencies s) []).
  set (t := final_tallies args s0 driveid feature_type).
  destruct (drive_blocks s0 t (ranking t)) as [bs|] eqn:B; [| discriminate].
  intros H. inversion H; subst out. clear H. cbn [stdout with_stdout app].
  split.
  - intros Hin. apply in_app_or in Hin. destruct Hin as [Hin | Hin].
    + apply walk_output_In in Hin.
      destruct Hin as [(l & _ & E) | (l & d & _ & Hd & E)]; [discriminate|].
      inversion E; subst d. apply other_drives_In in Hd. now destruct Hd.
    + destruct (drive_blocks_In _ _ _ _ _ B Hin)
        as [(e & n & _ & E) | [(e & _ & E) | [(w & f & E) | E]]]; discriminate.
  - intros name Hin. apply in_app_or in Hin. destruct Hin as [Hin | Hin].
    + apply walk_output_In in Hin.
      destruct Hin as [(l & _ & E) | (l & d & _ & _ & E)]; discriminate.
    + destruct (drive_blocks_In _ _ _ _ _ B Hin)
        as [(e & n & He & E) | [(e & _ & E) | [(w & f & E) | E]]]; try discriminate.
      inversion E; subst. apply final_tallies_keys in He. destruct He as (_ & Hne & _).
      now apply Hne.
Qed.

Lemma correlate_never_scores_target_witness :
  ~ In (PrintAlso 1)
       [PrintLine 2 2 "y"; PrintAlso 2; PrintDrive 2 "B"; PrintCorrelation 0.5%float;
        PrintContrib 0.5%float "y"; PrintText ""] /\
  forall name,
    ~ In (PrintDrive 1 name)
         [PrintLine 2 2 "y"; PrintAlso 2; PrintDrive 2 "B"; PrintCorrelation 0.5%float;
          PrintContrib 0.5%float "y"; PrintText ""].
Proof.
  apply (correlate_never_scores_target default_args two_drives 1 EMAIL_TYPE).
  vm_compute. reflexivity.
Defined.

(** ** Ingestion: the tally of raw features *)

Lemma tally_as_fold (feats : list (string * string * string)) :
  forall counter s,
    tally_features feats counter s =
    (ids <- map_M get_featureid (map (fun f => snd (fst f)) feats) ;;
     ret (fold_left (fun c id => counter_incr id c) ids counter)) s.
Proof.
  induction feats as [|[[pos feature] context] feats IH]; intros counter s; [reflexivity|].
  cbn [tally_features map map_M fst snd]. unfold bind.
  destruct (get_featureid feature s) as [[id s1]|e]; [| reflexivity].
  rewrite IH. unfold bind.
  destruct (map_M get_featureid (map (fun f => snd (fst f)) feats) s1) as [[ids s2]|e];
    reflexivity.
Qed.

Lemma counter_incr_get (k k' : Z) (counter : list (Z * Z)) :
  dict_get k (counter_incr k' counter) =
  if k' =? k
  then Some (match dict_get k counter with Some n => n | None => 0 end + 1)
  else dict_get k counter.
Proof.
  induction counter as [|[k0 n] counter IH]; simpl.
  - now destruct (k' =? k).
  - destruct (k0 =? k') eqn:E0; simpl.
    + apply Z.eqb_eq in E0. subst k0. now destruct (k' =? k).
    + rewrite IH. destruct (k0 =? k) eqn:E1; [| reflexivity].
      apply Z.eqb_eq in E1. subst k0. now rewrite Z.eqb_sym, E0.
Qed.

Lemma counter_incr_keys (k' : Z) (counter : list (Z * Z)) :
  NoDup (map fst counter) ->
  NoDup (map fst (counter_incr k' counter)) /\
  forall k, In k (map fst (counter_incr k' counter)) <-> k = k' \/ In k (map fst counter).
Proof.
  induction counter as [|[k0 n] counter IH]; simpl; intros Hnd.
  - split; [constructor; [simpl; tauto | constructor] | intros k; intuition].
  - inversion Hnd as [|? ? Hnotin Hnd']; subst.
    destruct (k0 =? k') eqn:E0; simpl.
    + apply Z.eqb_eq in E0. subst k0. split; [now constructor | intros k; intuition].
    + destruct (IH Hnd') as [IH1 IH2]. split.
      * constructor; [| exact IH1]. rewrite IH2. intros [-> | H]; [| contradiction].
        now rewrite Z.eqb_refl in E0.
      * intros k. rewrite IH2. intuition.
Qed.

Lemma tally_fold_get (k : Z) (ids : list Z) :
  forall counter,
    dict_get k (fold_left (fun c id => counter_incr id c) ids counter) =
    match count_occ Z.eq_dec ids k with
    | O => dict_get k counter
    | S _ => Some (match dict_get k counter with Some n => n | None => 0 end
                   + Z.of_nat (count_occ Z.eq_dec ids k))
    end.
Proof.
  induction ids as [|id ids IH]; intros counter; [reflexivity|].
  cbn [fold_left count_occ]. rewrite IH, counter_incr_get.
  destruct (Z.eq_dec id k) as [-> | Hne].
  - rewrite Z.eqb_refl. destruct (count_occ Z.eq_dec ids k); f_equal; lia.
  - apply Z.eqb_neq in Hne. rewrite Hne. reflexivity.
Qed.

Lemma tally_fold_keys (ids : list Z) :
  forall counter,
    NoDup (map fst counter) ->
    NoDup (map fst (fold_left (fun c id => counter_incr id c) ids counter)).
Proof.
  induction ids as [|id ids IH]; intros counter Hnd; [exact Hnd|].
  apply IH. now apply counter_incr_keys.
Qed.

Lemma dict_get_Some_In {V} (k : Z) (v : V) (d : list (Z * V)) :
  dict_get k d = Some v -> In (k, v) d.
Proof.
  induction d as [|[k0 v0] d IH]; simpl; [discriminate|].
  destruct (k0 =? k) eqn:E; [| auto].
  apply Z.eqb_eq in E. intros H. inversion H; subst. now left.
Qed.

Lemma dict_get_NoDup {V} (k : Z) (v : V) (d : list (Z * V)) :
  NoDup (map fst d) -> In (k, v) d -> dict_get k d = Some v.
Proof.
  induction d as [|[k0 v0] d IH]; simpl; [tauto|].
  intros Hnd [H | H]; inversion Hnd as [|? ? Hnotin Hnd']; subst.
  - inversion H; subst. now rewrite Z.eqb_refl.
  - destruct (k0 =? k) eqn:E; [| auto].
    apply Z.eqb_eq in E. subst k0. exfalso. apply Hnotin.
    apply in_map_iff. exists (k, v). auto.
Qed.

Lemma count_occ_resolved (rows : list feature_row) (ids : list Z) (texts : list string)
      (k : Z) (text : string) :
  NoDup (map f_featureid rows) -> NoDup (map f_feature rows) ->
  Forall2 (fun id t => In (mk_feature id t) rows) ids texts ->
  In (mk_feature k text) rows ->
  count_occ Z.eq_dec ids k = count_occ string_dec texts text.
Proof.
  intros Hid Hft Hall Hk. induction Hall as [|id t ids texts Hin _ IH]; [reflexivity|].
  cbn [count_occ]. rewrite IH.
  destruct (Z.eq_dec id k) as [E | E], (string_dec t text) as [E' | E']; try reflexivity.
  - exfalso. apply E'.
    assert (X : mk_feature id t = mk_feature k text)
      by (apply (NoDup_map_inj f_featureid rows); auto).
    congruence.
  - exfalso. apply E.
    assert (X : mk_feature id t = mk_feature k text)
      by (apply (NoDup_map_inj f_feature rows); auto).
    congruence.
Qed.

Lemma Forall2_In_left {A B} (R : A -> B -> Prop) (l : list A) (l' : list B) (x : A) :
  Forall2 R l l' -> In x l -> exists y, In y l' /\ R x y.
Proof.
  induction 1 as [|a b l l' Hab _ IH]; [contradiction|].
  intros [-> | Hx]; [exists b; split; [now left | exact Hab]|].
  destruct (IH Hx) as (y & Hy & Hxy). exists y. split; [now right | exact Hxy].
Qed.

(** The tally loop in full: what it returns and what it leaves alone. *)
Lemma tally_features_spec (feats : list (string * string * string)) (s : store) :
  features_ok s ->
  exists counter s',
    tally_features feats [] s = Ok (counter, s') /\
    features_ok s' /\ incl (features s) (features s') /\
    drives s' = drives s /\ feature_drive_counts s' = feature_drive_counts s /\
    feature_frequencies s' = feature_frequencies s /\ stdout s' = stdout s /\
    NoDup (map fst counter) /\
    forall fid n,
      In (fid, n) counter <->
      exists text,
        In (mk_feature fid text) (features s') /\
        n = Z.of_nat (count_occ string_dec (map (fun f => snd (fst f)) feats) text) /\
        0 < n.
Proof.
  intros Hok.
  destruct (resolve_all_spec (map (fun f => snd (fst f)) feats) s Hok)
    as (ids & s' & Hrun & Hok' & Hall & Hincl).
  assert (Hrun' : tally_features feats [] s =
                  Ok (fold_left (fun c id => counter_incr id c) ids [], s')).
  { rewrite tally_as_fold. unfold bind. now rewrite Hrun. }
  eexists _, s'. split; [exact Hrun'|]. split; [exact Hok'|]. split; [exact Hincl|].
  split; [exact (tally_features_keeps drives feats get_featureid_keeps_drives _ _ _ _ Hrun')|].
  split; [exact (tally_features_keeps feature_drive_counts feats
                   get_featureid_keeps_counts _ _ _ _ Hrun')|].
  split; [exact (tally_features_keeps feature_frequencies feats
                   get_featureid_keeps_frequencies _ _ _ _ Hrun')|].
  split; [exact (tally_features_keeps stdout feats get_featureid_keeps_stdout _ _ _ _ Hrun')|].
  assert (Hnd : NoDup (map fst (fold_left (fun c id => counter_incr id c) ids [])))
    by (apply tally_fold_keys; constructor).
  split; [exact Hnd|].
  destruct Hok' as [Hid Hft].
  intros fid n. split.
  - intros Hin. apply (dict_get_NoDup _ _ _ Hnd) in Hin.
    rewrite tally_fold_get in Hin. cbn [dict_get] in Hin.
    destruct (count_occ Z.eq_dec ids fid) as [|m] eqn:C; [discriminate|].
    assert (Hmem : In fid ids) by (apply (count_occ_In Z.eq_dec); lia).
    destruct (Forall2_In_left _ _ _ _ Hall Hmem) as (text & _ & Htext).
    exists text. split; [exact Htext|].
    rewrite <- (count_occ_resolved _ _ _ _ _ Hid Hft Hall Htext), C.
    inversion Hin. lia.
  - intros (text & Htext & Hn & Hpos).
    apply dict_get_Some_In. rewrite tally_fold_get. cbn [dict_get].
    rewrite (count_occ_resolved _ _ _ _ _ Hid Hft Hall Htext).
    destruct (count_occ string_dec (map (fun f => snd (fst f)) feats) text); [lia|].
    f_equal. lia.
Qed.

(** X8.  The tally of raw [winpe.txt] features: on a features table that
    satisfies its constraints the loop returns, keeps the constraints, and
    the tally it builds has one entry per distinct feature read, whose count
    is the number of times that feature occurs in the file. *)
Theorem winpe_tally (feats : list (string * string * string)) (s : store) :
  features_ok s ->
  exists counter s',
    tally_features feats [] s = Ok (counter, s') /\
    features_ok s' /\
    NoDup (map fst counter) /\
    forall fid n,
      In (fid, n) counter <->
      exists text,
        In (mk_feature fid text) (features s') /\
        n = Z.of_nat (count_occ string_dec (map (fun f => snd (fst f)) feats) text) /\
        0 < n.
Proof.
  intros Hok.
  destruct (tally_features_spec feats s Hok)
    as (counter & s' & Hrun & Hok' & _ & _ & _ & _ & _ & Hnd & Hcount).
  exists counter, s'. repeat split; try assumption; apply Hok' || apply Hcount.
Qed.

Lemma winpe_tally_witness :
  exists counter s',
    tally_features [("10", "h1", "c"); ("20", "h2", "c"); ("30", "h1", "c")] []
                   empty_store = Ok (counter, s') /\
    features_ok s' /\
    NoDup (map fst counter) /\
    forall fid n,
      In (fid, n) counter <->
      exists text,
        In (mk_feature fid text) (features s') /\
        n = Z.of_nat (count_occ string_dec
                        (map (fun f => snd (fst f))
                             [("10", "h1", "c"); ("20", "h2", "c"); ("30", "h1", "c")])
                        text) /\
        0 < n.
Proof.
  apply (winpe_tally [("10", "h1", "c"); ("20", "h2", "c"); ("30", "h1", "c")] empty_store).
  split; simpl; constructor.
Defined.

(** ** Ingestion: the whole pipeline *)

Lemma get_driveid_new (name : string) (s : store) :
  existsb (fun d => String.eqb (d_drivename d) name) (drives s) = false ->
  get_driveid name s =
  Ok (next_rowid (map d_driveid (drives s)),
      mk_store (drives s ++ [mk_drive (next_rowid (map d_driveid (drives s))) name None])
               (features s) (feature_drive_counts s) (feature_frequencies s) (stdout s)).
Proof. intros H. unfold get_driveid, bind, get, put, ret. now rewrite H. Qed.

Lemma search_loop_skips (id : Z) (entries : list (string * Z)) :
  forall s,
    for_each entries (fun '(search, count) =>
      if String.prefix "cache:" search then ret tt
      else featureid <- get_featureid search ;;
           insert_count id SEARCH_TYPE featureid count) s =
    for_each (filter not_cached entries) (fun '(search, count) =>
      featureid <- get_featureid search ;;
      insert_count id SEARCH_TYPE featureid count) s.
Proof.
  induction entries as [|[search count] entries IH]; intros s; [reflexivity|].
  cbn [for_each filter]. unfold not_cached at 1. cbn [fst].
  destruct (String.prefix "cache:" search); cbn [negb].
  - unfold bind at 1. unfold ret at 1. apply IH.
  - cbn [for_each]. unfold bind at 1. unfold bind at 3.
    destruct ((featureid <- get_featureid search ;;
               insert_count id SEARCH_TYPE featureid count) s) as [[u s1]|e];
      [apply IH | reflexivity].
Qed.

Lemma insert_count_run (driveid feature_type featureid count : Z) (s : store) :
  fits_int64 count = true ->
  insert_count driveid feature_type featureid count s =
  Ok (tt, mk_store (drives s) (features s)
            (feature_drive_counts s ++ [mk_count driveid feature_type featureid count])
            (feature_frequencies s) (stdout s)).
Proof. intros H. unfold insert_count. rewrite H. reflexivity. Qed.

Lemma histogram_loop (id T : Z) (entries : list (string * Z)) :
  Forall (fun e => fits_int64 (snd e) = true) entries ->
  forall s,
    features_ok s ->
    exists s' rows,
      for_each entries (fun '(text, count) =>
        featureid <- get_featureid text ;;
        insert_count id T featureid count) s = Ok (tt, s') /\
      features_ok s' /\ incl (features s) (features s') /\
      drives s' = drives s /\ feature_frequencies s' = feature_frequencies s /\
      stdout s' = stdout s /\
      feature_drive_counts s' = feature_drive_counts s ++ rows /\
      histogram_rows (features s') id T rows entries.
Proof.
  induction entries as [|[text count] entries IH]; intros Hfit s Hok.
  - exists s, []. rewrite app_nil_r.
    repeat split; auto using incl_refl; try apply Hok. constructor.
  - inversion Hfit as [|? ? Hcount Hfit']; subst. cbn [snd] in Hcount.
    specialize (IH Hfit').
    destruct (get_featureid_spec text s Hok)
      as (fid & s1 & Hrun & Hok1 & Hin & Hincl & Hd & Hc & Hr & Ho).
    set (s2 := mk_store (drives s1) (features s1)
                        (feature_drive_counts s1 ++ [mk_count id T fid count])
                        (feature_frequencies s1) (stdout s1)).
    assert (Hok2 : features_ok s2) by exact Hok1.
    destruct (IH s2 Hok2) as (s' & rows & Hrun' & Hok' & Hincl' & Hd' & Hr' & Ho' & Hc' & Hrows).
    exists s', (mk_count id T fid count :: rows).
    split.
    { cbn [for_each]. unfold bind at 1. unfold bind at 1. rewrite Hrun.
      rewrite (insert_count_run _ _ _ _ _ Hcount). exact Hrun'. }
    split; [exact Hok'|].
    split; [eapply incl_tran; [exact Hincl | exact Hincl']|].
    split; [now rewrite Hd'|]. split; [now rewrite Hr'|]. split; [now rewrite Ho'|].
    split.
    + rewrite Hc'. unfold s2. cbn [feature_drive_counts]. now rewrite Hc, <- app_assoc.
    + constructor; [| exact Hrows]. cbn. repeat split. apply Hincl'. exact Hin.
Qed.

Lemma insert_loop (id : Z) (counter : list (Z * Z)) :
  Forall (fun kv => fits_int64 (snd kv) = true) counter ->
  forall s,
    for_each counter (fun '(featureid, count) =>
      insert_count id WINPE_TYPE featureid count) s =
    Ok (tt, mk_store (drives s) (features s)
              (feature_drive_counts s ++
               map (fun kv => mk_count id WINPE_TYPE (fst kv) (snd kv)) counter)
              (feature_frequencies s) (stdout s)).
Proof.
  induction counter as [|[f n] counter IH]; intros Hfit s.
  - simpl. unfold ret. rewrite app_nil_r. now destruct s.
  - inversion Hfit as [|? ? Hn Hfit']; subst. cbn [snd] in Hn.
    cbn [for_each]. unfold bind at 1. rewrite (insert_count_run _ _ _ _ _ Hn).
    rewrite (IH Hfit'). cbn. now rewrite <- app_assoc.
Qed.

Lemma histogram_rows_incl (feats feats' : list feature_row) (id T : Z)
      (rows : list count_row) (entries : list (string * Z)) :
  incl feats feats' ->
  histogram_rows feats id T rows entries -> histogram_rows feats' id T rows entries.
Proof.
  intros Hincl H. induction H as [|c e rows entries (H1 & H2 & H3 & H4) _ IH];
    constructor; [| exact IH].
  repeat split; auto.
Qed.

Lemma bind_run {A B} (m : M A) (k : A -> M B) (s s1 : store) (a : A) :
  m s = Ok (a, s1) -> bind m k s = k a s1.
Proof. intros H. unfold bind. now rewrite H. Qed.

Lemma delete_run (driveid : Z) (s : store) :
  delete_drive_counts driveid s =
  Ok (tt, mk_store (drives s) (features s)
            (filter (fun c => negb (c_driveid c =? driveid)) (feature_drive_counts s))
            (feature_frequencies s) (stdout s)).
Proof. reflexivity. Qed.

(** The run of [ingest] on a new image name, step by step. *)
Lemma ingest_run (br : BulkReport) (s : store) :
  features_ok s ->
  ~ In (image_filename br) (map d_drivename (drives s)) ->
  counts_fit br ->
  let id := next_rowid (map d_driveid (drives s)) in
  exists s' rs re rw,
    ingest br s = Ok (tt, s') /\
    features_ok s' /\ incl (features s) (features s') /\
    drives s' = drives s ++ [mk_drive id (image_filename br) None] /\
    feature_frequencies s' = feature_frequencies s /\
    feature_drive_counts s' =
      filter (fun c => negb (c_driveid c =? id)) (feature_drive_counts s)
      ++ rs ++ re ++ rw /\
    histogram_rows (features s') id SEARCH_TYPE rs (filter not_cached (url_searches br)) /\
    histogram_rows (features s') id EMAIL_TYPE re (email_histogram br) /\
    tally_rows (features s') id rw (winpe br) /\
    stdout s' = stdout s ++ [PrintIngesting (image_filename br) id; PrintImported id].
Proof.
  intros Hok Hnew (Hfs & Hfe & Hfw) id.
  assert (Hex : existsb (fun d => String.eqb (d_drivename d) (image_filename br))
                        (drives s) = false).
  { destruct (existsb _ (drives s)) eqn:E; [| reflexivity].
    apply existsb_name_In in E. contradiction. }
  unfold ingest.
  rewrite (bind_run _ _ _ _ _ (get_driveid_new _ _ Hex)). fold id.
  rewrite (bind_run _ _ _ _ _ (print_run _ _)).
  rewrite (bind_run _ _ _ _ _ (delete_run _ _)).
  cbn [drives features feature_drive_counts feature_frequencies stdout with_stdout].
  set (s3 := mk_store _ _ _ _ _).
  assert (Hok3 : features_ok s3) by exact Hok.
  destruct (histogram_loop id SEARCH_TYPE (filter not_cached (url_searches br)) Hfs s3 Hok3)
    as (s4 & rs & Hrun4 & Hok4 & Hincl4 & Hd4 & Hr4 & Ho4 & Hc4 & Hrows4).
  rewrite <- search_loop_skips in Hrun4.
  rewrite (bind_run _ _ _ _ _ Hrun4).
  destruct (histogram_loop id EMAIL_TYPE (email_histogram br) Hfe s4 Hok4)
    as (s5 & re & Hrun5 & Hok5 & Hincl5 & Hd5 & Hr5 & Ho5 & Hc5 & Hrows5).
  rewrite (bind_run _ _ _ _ _ Hrun5).
  destruct (tally_features_spec (winpe br) s5 Hok5)
    as (counter & s6 & Hrun6 & Hok6 & Hincl6 & Hd6 & Hc6 & Hr6 & Ho6 & Hnd & Hcount).
  rewrite (bind_run _ _ _ _ _ Hrun6).
  assert (Hfc : Forall (fun kv => fits_int64 (snd kv) = true) counter).
  { apply Forall_forall. intros [fid n] Hkv. cbn [snd].
    apply Hcount in Hkv. destruct Hkv as (text & _ & Hn & Hpos).
    pose proof (count_occ_bound string_dec text (map (fun f => snd (fst f)) (winpe br)))
      as Hb.
    rewrite length_map in Hb.
    unfold fits_int64. apply andb_true_iff. split; apply Z.leb_le; lia. }
  rewrite (bind_run _ _ _ _ _ (insert_loop _ _ Hfc _)).
  rewrite print_run.
  eexists _, rs, re, _. split; [reflexivity|].
  cbn [drives features feature_drive_counts feature_frequencies stdout with_stdout].
  split; [exact Hok6|].
  split; [eapply incl_tran; [exact Hincl4|]; eapply incl_tran; [exact Hincl5 | exact Hincl6]|].
  split; [now rewrite Hd6, Hd5, Hd4|].
  split; [now rewrite Hr6, Hr5, Hr4|].
  split; [rewrite Hc6, Hc5, Hc4; unfold s3; cbn [feature_drive_counts];
          now rewrite <- !app_assoc|].
  split; [eapply histogram_rows_incl; [| exact Hrows4];
          eapply incl_tran; [exact Hincl5 | exact Hincl6]|].
  split; [eapply histogram_rows_incl; [exact Hincl6 | exact Hrows5]|].
  split; [exists counter; auto|].
  rewrite Ho6, Ho5, Ho4. unfold s3. cbn [stdout]. now rewrite <- app_assoc.
Qed.








(** ** The pipeline keeps the store well formed *)

Lemma histogram_rows_drive (feats : list feature_row) (id T : Z)
      (rows : list count_row) (entries : list (string * Z)) (c : count_row) :
  histogram_rows feats id T rows entries -> In c rows -> c_driveid c = id.
Proof.
  induction 1 as [|c0 e rows entries (H1 & _) _ IH]; [contradiction|].
  intros [<- | H]; auto.
Qed.

Lemma ingest_well_formed (br : BulkReport) (s : store) :
  well_formed s ->
  ~ In (image_filename br) (map d_drivename (drives s)) ->
  counts_fit br ->
  exists s',
    ingest br s = Ok (tt, s') /\ well_formed s' /\
    map d_drivename (drives s') = map d_drivename (drives s) ++ [image_filename br].
Proof.
  intros (Hok & [Hids Hnames] & Href) Hnew Hfit.
  destruct (ingest_run br s Hok Hnew Hfit)
    as (s' & rs & re & rw & Hrun & Hok' & _ & Hd & _ & Hc & Hs & He & Hw & _).
  exists s'. split; [exact Hrun|]. split; [| now rewrite Hd, map_app].
  split; [exact Hok'|]. split.
  - unfold drives_ok. rewrite Hd, !map_app. simpl. split.
    + apply NoDup_app; auto.
      * constructor; [simpl; tauto | constructor].
      * intros a Ha [<- | []]. exact (next_rowid_fresh _ Ha).
    + apply NoDup_app; auto.
      * constructor; [simpl; tauto | constructor].
      * intros a Ha [<- | []]. contradiction.
  - intros c Hin. rewrite Hd, map_app. apply in_or_app.
    rewrite Hc in Hin. apply in_app_or in Hin. destruct Hin as [Hin | Hin].
    + left. apply filter_In in Hin. now apply Href.
    + right. left.
      apply in_app_or in Hin. destruct Hin as [Hin | Hin];
        [symmetry; exact (histogram_rows_drive _ _ _ _ _ _ Hs Hin)|].
      apply in_app_or in Hin. destruct Hin as [Hin | Hin];
        [symmetry; exact (histogram_rows_drive _ _ _ _ _ _ He Hin)|].
      destruct Hw as (counter & -> & _). apply in_map_iff in Hin.
      destruct Hin as (kv & <- & _). reflexivity.
Qed.

Lemma batch_well_formed (reports : list BulkReport) :
  forall s,
    well_formed s ->
    NoDup (map image_filename reports) ->
    (forall r, In r reports -> ~ In (image_filename r) (map d_drivename (drives s))) ->
    Forall counts_fit reports ->
    exists s',
      for_each reports ingest s = Ok (tt, s') /\ well_formed s' /\
      map d_drivename (drives s') =
        map d_drivename (drives s) ++ map image_filename reports.
Proof.
  induction reports as [|br reports IH]; intros s Hwf Hnd Hnew Hfit.
  - exists s. rewrite app_nil_r. auto.
  - inversion Hnd as [|? ? Hnotin Hnd']; subst.
    inversion Hfit as [|? ? Hfit1 Hfit']; subst.
    destruct (ingest_well_formed br s Hwf (Hnew br (or_introl eq_refl)) Hfit1)
      as (s1 & Hrun1 & Hwf1 & Hnames1).
    destruct (IH s1 Hwf1 Hnd') as (s' & Hrun' & Hwf' & Hnames'); [| exact Hfit' |].
    + intros r Hr Hin. rewrite Hnames1 in Hin. apply in_app_or in Hin.
      destruct Hin as [Hin | [Hin | []]].
      * exact (Hnew r (or_intror Hr) Hin).
      * apply Hnotin. rewrite Hin. now apply in_map.
    + exists s'. split; [| split; [exact Hwf'|]].
      * cbn [for_each]. now rewrite (bind_run _ _ _ _ _ Hrun1).
      * rewrite Hnames', Hnames1, <- app_assoc. reflexivity.
Qed.

(** X10.  [ingest] keeps the store well formed: from a store whose
    [features] and [drives] satisfy their constraints and whose per-drive
    rows all name registered drives, ingesting a report under a new image
    name, with counts that fit in 64 bits, returns a store with the same
    properties, the new name last in [drives]. *)
Theorem ingest_keeps_well_formed (br : BulkReport) (s : store) :
  well_formed s ->
  ~ In (image_filename br) (map d_drivename (drives s)) ->
  counts_fit br ->
  exists s',
    ingest br s = Ok (tt, s') /\ well_formed s' /\
    map d_drivename (drives s') = map d_drivename (drives s) ++ [image_filename br].
Proof.
  intros Hwf Hnew Hfit.
  destruct (ingest_well_formed br s Hwf Hnew Hfit) as (s' & Hrun & Hwf' & Hnames).
  exists s'. auto.
Qed.

Lemma ingest_keeps_well_formed_witness :
  exists s',
    ingest report_A empty_store = Ok (tt, s') /\ well_formed s' /\
    map d_drivename (drives s') = map d_drivename (drives empty_store) ++ ["A"].
Proof.
  apply (ingest_keeps_well_formed report_A empty_store).
  - repeat split; simpl; try constructor. intros c [].
  - simpl. tauto.
  - repeat split; simpl; try lia; repeat constructor.
Defined.

(** X11.  The batch the command line is meant to run: starting from a well
    formed store (for instance the empty one), ingesting any list of reports
    with pairwise distinct, not yet registered image names and counts that
    fit in 64 bits returns and leaves the store well formed.  The rebuild
    that follows returns when no count in the table is negative and the
    counts add up to at most [2^63 - 1]; and whenever it returns, the store
    is still well formed and [correlate_for_type] then returns for every
    drive, type and threshold, changing only the printed output. *)
Theorem batch_then_correlate (reports : list BulkReport) (s : store) :
  well_formed s ->
  NoDup (map image_filename reports) ->
  (forall r, In r reports -> ~ In (image_filename r) (map d_drivename (drives s))) ->
  Forall counts_fit reports ->
  exists s1,
    for_each reports ingest s = Ok (tt, s1) /\
    well_formed s1 /\
    map d_drivename (drives s1) = map d_drivename (drives s) ++ map image_filename reports /\
    ((forall c, In c (feature_drive_counts s1) -> 0 <= c_count c) ->
     sum_Z (map c_count (feature_drive_counts s1)) <= 9223372036854775807 ->
     exists s2, build_feature_frequences s1 = Ok (tt, s2)) /\
    forall s2,
      build_feature_frequences s1 = Ok (tt, s2) ->
      well_formed s2 /\ drives s2 = drives s1 /\
      forall args driveid feature_type,
        exists out,
          correlate_for_type args driveid feature_type s2 =
          Ok (tt, with_stdout s2 (stdout s2 ++ out)).
Proof.
  intros Hwf Hnd Hnew Hfit.
  destruct (batch_well_formed reports s Hwf Hnd Hnew Hfit) as (s1 & Hrun & Hwf1 & Hnames).
  exists s1. split; [exact Hrun|]. split; [exact Hwf1|]. split; [exact Hnames|]. split.
  - intros Hpos Hle. rewrite build_feature_frequences_spec.
    rewrite (sums_fit_nonneg _ Hpos Hle). eexists. reflexivity.
  - intros s2 Hbuild. apply build_feature_frequences_ok in Hbuild.
    destruct Hbuild as [_ ->].
    assert (Hwf2 : well_formed
              (mk_store (drives s1) (features s1) (feature_drive_counts s1)
                 (frequency_rows (group_keys (feature_drive_counts s1))
                                 (feature_drive_counts s1) [])
                 ((stdout s1 ++ [PrintText "Building feature frequences..."])
                    ++ [PrintText "Feature frequences built."]))) by exact Hwf1.
    split; [exact Hwf2|]. split; [reflexivity|].
    intros args driveid feature_type. apply correlate_total. apply Hwf2.
Qed.

Lemma batch_then_correlate_witness :
  exists s1,
    for_each [report_A; report_B] ingest empty_store = Ok (tt, s1) /\
    well_formed s1 /\
    map d_drivename (drives s1) =
      map d_drivename (drives empty_store) ++ map image_filename [report_A; report_B] /\
    ((forall c, In c (feature_drive_counts s1) -> 0 <= c_count c) ->
     sum_Z (map c_count (feature_drive_counts s1)) <= 9223372036854775807 ->
     exists s2, build_feature_frequences s1 = Ok (tt, s2)) /\
    forall s2,
      build_feature_frequences s1 = Ok (tt, s2) ->
      well_formed s2 /\ drives s2 = drives s1 /\
      forall args driveid feature_type,
        exists out,
          correlate_for_type args driveid feature_type s2 =
          Ok (tt, with_stdout s2 (stdout s2 ++ out)).
Proof.
  apply (batch_then_correlate [report_A; report_B] empty_store).
  - repeat split; simpl; try constructor. intros c [].
  - simpl. repeat constructor; simpl; intuition discriminate.
  - simpl. tauto.
  - repeat constructor; simpl; lia.
Defined.

(** ** The self test and the command line *)

(** X12.  The assertions of [test] hold on every features table that
    satisfies its constraints, empty or not: the function returns, the
    table keeps its constraints, and afterwards the texts ["A"] and ["B"]
    have one row each. *)
Theorem test_passes (s : store) :
  features_ok s ->
  exists s' a b,
    test s = Ok (tt, s') /\ features_ok s' /\ a <> b /\
    In (mk_feature a "A") (features s') /\ In (mk_feature b "B") (features s') /\
    incl (features s) (features s').
Proof.
  intros Hok. unfold test.
  destruct (get_featureid_spec "A" s Hok) as (a & s1 & R1 & Ok1 & In1 & Inc1 & _).
  destruct (get_featureid_spec "B" s1 Ok1) as (b & s2 & R2 & Ok2 & In2 & Inc2 & _).
  destruct (get_featureid_spec "A" s2 Ok2) as (a' & s3 & R3 & Ok3 & In3 & Inc3 & _).
  destruct (get_featureid_spec "B" s3 Ok3) as (b' & s4 & R4 & Ok4 & In4 & Inc4 & _).
  assert (Hab : a <> b).
  { intros E. subst b.
    assert (X : mk_feature a "A" = mk_feature a "B")
      by (apply (NoDup_map_inj f_featureid (features s2)); auto; apply Ok2).
    discriminate X. }
  assert (Ha : a' = a).
  { assert (X : mk_feature a' "A" = mk_feature a "A")
      by (apply (NoDup_map_inj f_feature (features s3)); auto; apply Ok3).
    congruence. }
  assert (Hb : b' = b).
  { assert (X : mk_feature b' "B" = mk_feature b "B")
      by (apply (NoDup_map_inj f_feature (features s4)); auto; apply Ok4).
    congruence. }
  exists s4, a, b. split.
  - rewrite (bind_run _ _ _ _ _ R1), (bind_run _ _ _ _ _ R2).
    apply Z.eqb_neq in Hab. unfold py_assert at 1. rewrite Hab. cbn [negb].
    rewrite (bind_run _ _ s2 s2 tt eq_refl), (bind_run _ _ _ _ _ R3).
    unfold py_assert at 1. rewrite Ha, Z.eqb_refl.
    rewrite (bind_run _ _ s3 s3 tt eq_refl), (bind_run _ _ _ _ _ R4).
    unfold py_assert. now rewrite Hb, Z.eqb_refl.
  - split; [exact Ok4|]. split; [exact Hab|].
    split; [auto|]. split; [auto|].
    eapply incl_tran; [exact Inc1|]. eapply incl_tran; [exact Inc2|].
    eapply incl_tran; [exact Inc3 | exact Inc4].
Qed.

Lemma test_passes_witness :
  exists s' a b,
    test two_drives = Ok (tt, s') /\ features_ok s' /\ a <> b /\
    In (mk_feature a "A") (features s') /\ In (mk_feature b "B") (features s') /\
    incl (features two_drives) (features s').
Proof.
  apply (test_passes two_drives).
  split; simpl; repeat constructor; simpl; intuition discriminate.
Defined.

Lemma create_schema_raises (cat : catalog) :
  exists e, raised (create_schema cat) = Some e.
Proof.
  unfold create_schema.
  destruct schema_split as (l0 & l1 & l2 & post & E). rewrite E.
  apply execute_lines_raises. vm_compute. reflexivity.
Qed.

Lemma create_schema_fresh_raises :
  raised (create_schema fresh_catalog) = Some (OperationalError "syntax error").
Proof. vm_compute. reflexivity. Qed.

Lemma main_test (o : options) (cat : catalog) (st : store) :
  opt_test o = true -> main o cat st = Raise (OperationalError "syntax error").
Proof.
  intros Ht. unfold main, ddl. rewrite Ht, create_schema_fresh_raises. reflexivity.
Qed.

Lemma main_ingest (o : options) (cat : catalog) (st : store) :
  opt_test o = false -> opt_ingest o = true -> exists e, main o cat st = Raise e.
Proof.
  intros Ht Hi. destruct (create_schema_raises cat) as [e0 He0].
  unfold main, ddl. rewrite Ht, Hi, He0. cbn [and_then]. eauto.
Qed.

Lemma main_build (o : options) (cat : catalog) (st : store) :
  opt_test o = false -> opt_ingest o = false -> opt_build o = true ->
  main o cat st = Raise (NameError "build_feature_frequencies").
Proof. intros Ht Hi Hb. unfold main. rewrite Ht, Hi, Hb. reflexivity. Qed.

Lemma main_quiet (o : options) (cat : catalog) (st : store) :
  opt_test o = false -> opt_ingest o = false -> opt_build o = false ->
  main o cat st =
  and_then
    (if opt_list o then
       if has_name "drives" (tables cat)
       then and_then (list_drives st) (fun r => Ok (snd r))
       else Raise (OperationalError "no such table: drives")
     else Ok st) (fun st2 =>
  and_then
    (match opt_report o with
     | Some driveid =>
         if driveid =? 0 then Ok st2
         else and_then (make_report (opt_args o) driveid st2) (fun r => Ok (snd r))
     | None => Ok st2
     end) (fun st3 => Ok (cat, st3))).
Proof. intros Ht Hi Hb. unfold main. rewrite Ht, Hi, Hb. reflexivity. Qed.


(** ** The order of the walk *)

(** X14.  The lines the loop walks are the fetched rows with a drive count
    above 1, each as often as it was fetched, in ascending order of drive
    count with ties in ascending order of feature id. *)
Theorem candidate_lines_order (s : store) (driveid feature_type : Z) :
  StronglySorted line_le (candidate_lines s driveid feature_type) /\
  Permutation (candidate_lines s driveid feature_type)
              (filter (fun r => 1 <? line_drivecount r)
                      (select_lines s driveid feature_type)).
Proof.
  split; [apply candidate_lines_sorted|].
  unfold candidate_lines. apply filter_perm, sorted_perm.
Qed.

Lemma walked_raise (t1 t2 : Z) (res : list line) :
  t1 <= t2 -> exists more, walked t2 res = walked t1 res ++ more.
Proof.
  intros Hle. induction res as [|l res IH]; [exists []; reflexivity|].
  cbn [walked].
  destruct (t1 <? line_drivecount l) eqn:E1, (t2 <? line_drivecount l) eqn:E2.
  - exists []. reflexivity.
  - exists (walked t2 res). reflexivity.
  - apply Z.ltb_ge in E1. apply Z.ltb_lt in E2. lia.
  - destruct IH as [more IH]. exists more. simpl. now rewrite IH.
Qed.

Lemma tally_keeps_keys (d : Z) (evs : list (Z * line)) :
  forall t, dict_get d (coefs t) <> None -> dict_get d (coefs (tally evs t)) <> None.
Proof.
  induction evs as [|[d' l] evs IH]; intros t H; [exact H|].
  change (tally ((d', l) :: evs) t) with (tally evs (add_contribution l d' t)).
  apply IH. rewrite add_contribution_coefs.
  destruct (d' =? d); [discriminate | exact H].
Qed.

(** X15.  Raising the drive threshold never takes anything away from the
    walk: both walks return, what the walk prints under a threshold is a
    prefix of what it prints under any larger one, and every drive scored
    under the smaller threshold is scored under the larger. *)
Theorem walk_monotone (a1 a2 : arguments) (driveid : Z) (res : list line)
        (t : tallies) (s : store) :
  drive_threshold a1 <= drive_threshold a2 ->
  exists t1 s1 t2 s2 more,
    walk a1 driveid res t s = Ok (t1, s1) /\
    walk a2 driveid res t s = Ok (t2, s2) /\
    stdout s2 = stdout s1 ++ more /\
    forall d, dict_get d (coefs t1) <> None -> dict_get d (coefs t2) <> None.
Proof.
  intros Hle. destruct (walked_raise _ _ res Hle) as [more Hmore].
  rewrite !walk_spec, Hmore.
  eexists _, _, _, _, (walk_output s driveid more).
  split; [reflexivity|]. split; [reflexivity|]. split.
  - cbn [stdout with_stdout]. unfold walk_output. now rewrite flat_map_app, app_assoc.
  - intros d. unfold contributions. rewrite flat_map_app.
    rewrite tally_app. apply tally_keeps_keys.
Qed.

Lemma walk_monotone_witness :
  exists t1 s1 t2 s2 more,
    walk (mk_args 2 0.5%float) 1 (candidate_lines two_drives 1 EMAIL_TYPE)
         (mk_tallies [] []) two_drives = Ok (t1, s1) /\
    walk default_args 1 (candidate_lines two_drives 1 EMAIL_TYPE)
         (mk_tallies [] []) two_drives = Ok (t2, s2) /\
    stdout s2 = stdout s1 ++ more /\
    forall d, dict_get d (coefs t1) <> None -> dict_get d (coefs t2) <> None.
Proof.
  apply (walk_monotone (mk_args 2 0.5%float) default_args 1
           (candidate_lines two_drives 1 EMAIL_TYPE) (mk_tallies [] []) two_drives).
  simpl. lia.
Defined.

(** X16.  Get-or-create is idempotent: once [get_featureid] has returned
    for a text, calling it again with the same text returns the same id and
    leaves the store exactly as it is, whatever the table held before. *)
Theorem get_featureid_again (feature : string) (s s1 : store) (id : Z) :
  get_featureid feature s = Ok (id, s1) -> get_featureid feature s1 = Ok (id, s1).
Proof.
  unfold get_featureid, bind, get, put, ret, raise.
  destruct (existsb (fun f => String.eqb (f_feature f) feature) (features s)) eqn:E.
  - destruct (filter (fun f => String.eqb (f_feature f) feature) (features s))
      as [|f fs] eqn:F; [discriminate|].
    intros H. inversion H; subst. now rewrite E, F.
  - cbn [features].
    destruct (filter (fun f => String.eqb (f_feature f) feature)
                     (features s ++ [mk_feature (next_rowid (map f_featureid (features s)))
                                                feature]))
      as [|f fs] eqn:F; [discriminate|].
    intros H. inversion H; subst. cbn [features].
    rewrite existsb_app. cbn [existsb f_feature]. rewrite String.eqb_refl, orb_true_r.
    cbn [features]. now rewrite F.
Qed.

Lemma get_featureid_again_witness :
  get_featureid "y" two_drives = Ok (2, two_drives).
Proof.
  apply (get_featureid_again "y" two_drives two_drives 2). reflexivity.
Defined.

Lemma select_lines_none (s : store) (driveid feature_type : Z) :
  feature_frequencies s = [] \/
  (forall c, In c (feature_drive_counts s) ->
     c_driveid c = driveid -> c_feature_type c <> feature_type) ->
  select_lines s driveid feature_type = [].
Proof.
  intros H. unfold select_lines.
  induction (feature_drive_counts s) as [|c cs IH]; [reflexivity|].
  cbn [flat_map]. rewrite IH.
  - rewrite app_nil_r.
    destruct ((c_driveid c =? driveid) && (c_feature_type c =? feature_type)) eqn:E;
      [| reflexivity].
    apply andb_prop in E. destruct E as [E1 E2].
    apply Z.eqb_eq in E1, E2.
    destruct H as [H | H].
    + rewrite H. clear. induction (features s) as [|f fs IHf]; [reflexivity|].
      cbn [flat_map]. destruct (c_featureid c =? f_featureid f); exact IHf.
    + exfalso. exact (H c (or_introl eq_refl) E1 E2).
  - destruct H as [H | H]; [now left | right].
    intros c' Hc'. apply H. now right.
Qed.

(** X17.  [correlate_for_type] on nothing: when the frequency table is
    empty (no rebuild has run), or the drive has no row of the type (an
    unknown drive id included), the call returns, prints nothing and leaves
    the store as it is. *)
Theorem correlate_nothing (args : arguments) (s : store) (driveid feature_type : Z) :
  feature_frequencies s = [] \/
  (forall c, In c (feature_drive_counts s) ->
     c_driveid c = driveid -> c_feature_type c <> feature_type) ->
  correlate_for_type args driveid feature_type s = Ok (tt, s).
Proof.
  intros H. unfold correlate_for_type.
  rewrite (bind_run _ _ s s s eq_refl).
  unfold candidate_lines. rewrite (select_lines_none s driveid feature_type H).
  cbn. unfold bind, ret. reflexivity.
Qed.

Lemma correlate_nothing_witness :
  correlate_for_type default_args 7 EMAIL_TYPE two_drives = Ok (tt, two_drives).
Proof.
  apply (correlate_nothing default_args two_drives 7 EMAIL_TYPE).
  right. intros c Hc Hd. simpl in Hc.
  repeat (destruct Hc as [<- | Hc]; [discriminate Hd|]). contradiction.
Defined.

(** ** Schema creation on any database *)

(** X18.  Whatever the database holds, a call of [create_schema] creates no
    index, drops nothing, and adds at most the tables [drives] and
    [features]; it prints the pieces of the schema up to the one that
    raises, which is at the latest the misspelt statement (index 3). *)
Theorem create_schema_effect (cat : catalog) :
  indexes (left_catalog (create_schema cat)) = indexes cat /\
  (exists added,
     tables (left_catalog (create_schema cat)) = tables cat ++ added /\
     incl added ["drives"; "features"]) /\
  exists n,
    printed (create_schema cat) = firstn n (split_on ";" schema) /\
    (2 <= n <= 4)%nat.
Proof.
  split; [| split; [apply create_schema_tables|]].
  - unfold create_schema.
    set (lines := split_on ";" schema). vm_compute in lines. subst lines.
    cbn [execute_lines]. unfold execute. eval_parse. cbn [run_statement].
    destruct (has_name "drives" (tables cat));
      [| destruct (has_name "drives" (indexes cat)) ]; cbn -[has_name];
      try reflexivity.
    + destruct (has_name "features" (tables cat));
        [| destruct (has_name "features" (indexes cat)) ]; reflexivity.
    + destruct (has_name "features" (tables cat ++ ["drives"]));
        [| destruct (has_name "features" (indexes cat)) ]; reflexivity.
  - unfold create_schema.
    set (lines := split_on ";" schema). vm_compute in lines. subst lines.
    cbn [execute_lines]. unfold execute. eval_parse. cbn [run_statement].
    destruct (has_name "drives" (tables cat));
      [| destruct (has_name "drives" (indexes cat)) ]; cbn -[has_name].
    + destruct (has_name "features" (tables cat));
        [| destruct (has_name "features" (indexes cat)) ]; cbn -[has_name].
      * exists 4%nat. split; [vm_compute; reflexivity | lia].
      * exists 3%nat. split; [vm_compute; reflexivity | lia].
      * exists 4%nat. split; [vm_compute; reflexivity | lia].
    + exists 2%nat. split; [vm_compute; reflexivity | lia].
    + destruct (has_name "features" (tables cat ++ ["drives"]));
        [| destruct (has_name "features" (indexes cat)) ]; cbn -[has_name].
      * exists 4%nat. split; [vm_compute; reflexivity | lia].
      * exists 3%nat. split; [vm_compute; reflexivity | lia].
      * exists 4%nat. split; [vm_compute; reflexivity | lia].
Qed.

(** ** The command line *)

Lemma list_drives_run (st : store) :
  list_drives st =
  Ok (tt, with_stdout st
            (stdout st ++
             map (fun d => PrintListed (d_driveid d) (d_drivename d))
                 (sorted (fun y x => String.ltb (d_drivename y) (d_drivename x))
                         (drives st)))).
Proof.
  unfold list_drives. rewrite (bind_run _ _ st st st eq_refl). apply for_each_print.
Qed.

Lemma ascii_compare_trans (x y z : ascii) (c : comparison) :
  Ascii.compare x y = c -> Ascii.compare y z = c -> Ascii.compare x z = c.
Proof.
  unfold Ascii.compare. destruct c; intros H1 H2.
  - apply N.compare_eq_iff in H1, H2. apply N.compare_eq_iff. congruence.
  - apply N.compare_lt_iff in H1, H2. apply N.compare_lt_iff.
    eapply N.lt_trans; eassumption.
  - apply N.compare_gt_iff in H1, H2. apply N.compare_gt_iff.
    eapply N.lt_trans; eassumption.
Qed.

Lemma string_leb_trans (a : string) :
  forall b c, String.leb a b = true -> String.leb b c = true -> String.leb a c = true.
Proof.
  unfold String.leb.
  induction a as [|x a IH]; intros [|y b] [|z c]; cbn; try easy.
  destruct (Ascii.compare x y) eqn:E1, (Ascii.compare y z) eqn:E2; try easy.
  - rewrite (ascii_compare_trans _ _ _ _ E1 E2). apply IH.
  - apply Ascii.compare_eq_iff in E1. subst y. now rewrite E2.
  - apply Ascii.compare_eq_iff in E2. subst z. now rewrite E1.
  - now rewrite (ascii_compare_trans _ _ _ _ E1 E2).
Qed.

Lemma drives_by_name (rows : list drive_row) :
  StronglySorted name_le
    (sorted (fun y x => String.ltb (d_drivename y) (d_drivename x)) rows).
Proof.
  induction rows as [|x l IH]; simpl; [constructor|].
  apply insert_sorted_sorted; [| | | exact IH].
  - intros a b. unfold name_le, String.ltb, String.leb.
    now destruct (String.compare (d_drivename a) (d_drivename b)).
  - intros a b. unfold name_le, String.ltb, String.leb.
    rewrite (String.compare_antisym (d_drivename a) (d_drivename b)).
    now destruct (String.compare (d_drivename b) (d_drivename a)).
  - intros a b c. unfold name_le. apply string_leb_trans.
Qed.

(** X13.  The command line as the main block dispatches it.  A run with
    [--test] ends in the OperationalError of the schema before [test] is
    called; a run with [--ingest] ends in an exception of [create_schema]
    before any report is read; a run with [--build] ends in a NameError,
    because the block calls [build_feature_frequencies] and the function is
    named [build_feature_frequences]; a run with [--report N], N not 0, ends
    in the NameError of [make_report].  A run that returns therefore did
    none of these and changed no table; if [--list] was given, the [drives]
    table exists and the run printed every drive once, in ascending order of
    the drive names (not of the ids): drives registered as B, A, C are
    listed as A, B, C.  [--recalc] is never looked at. *)
Theorem main_dispatch (o : options) (cat : catalog) (st : store) :
  (opt_test o = true -> exists msg, main o cat st = Raise (OperationalError msg)) /\
  (opt_test o = false -> opt_ingest o = true -> exists e, main o cat st = Raise e) /\
  (opt_test o = false -> opt_ingest o = false -> opt_build o = true ->
   main o cat st = Raise (NameError "build_feature_frequencies")) /\
  (opt_test o = false -> opt_ingest o = false -> opt_build o = false ->
   opt_list o = false ->
   forall driveid, opt_report o = Some driveid -> driveid <> 0 ->
   main o cat st = Raise (NameError "c")) /\
  (forall db, main o cat st = Ok db ->
     opt_test o = false /\ opt_ingest o = false /\ opt_build o = false /\
     (opt_report o = None \/ opt_report o = Some 0) /\
     fst db = cat /\
     (opt_list o = false -> snd db = st) /\
     (opt_list o = true ->
      has_name "drives" (tables cat) = true /\
      exists listed,
        snd db = with_stdout st
                   (stdout st ++
                    map (fun d => PrintListed (d_driveid d) (d_drivename d)) listed) /\
        Permutation listed (drives st) /\
        StronglySorted name_le listed)) /\
  (forall b,
     main (mk_options (opt_ingest o) (opt_list o) b (opt_test o) (opt_report o)
                      (opt_build o) (opt_reports o) (opt_args o)) cat st
     = main o cat st) /\
  main (mk_options false true false false None false [] default_args)
       (mk_catalog ["drives"] [])
       (mk_store [mk_drive 1 "B" None; mk_drive 2 "A" None; mk_drive 3 "C" None]
                 [] [] [] [])
  = Ok (mk_catalog ["drives"] [],
        mk_store [mk_drive 1 "B" None; mk_drive 2 "A" None; mk_drive 3 "C" None]
                 [] [] []
                 [PrintListed 2 "A"; PrintListed 1 "B"; PrintListed 3 "C"]).
Proof.
  split; [| split; [| split; [| split; [| split; [| split]]]]].
  - intros Ht. eexists. now apply main_test.
  - apply main_ingest.
  - apply main_build.
  - intros Ht Hi Hb Hl driveid Hr Hne. rewrite (main_quiet o cat st Ht Hi Hb), Hl, Hr.
    apply Z.eqb_neq in Hne. cbn [and_then]. rewrite Hne. reflexivity.
  - intros db H.
    destruct (opt_test o) eqn:Ht; [rewrite (main_test o cat st Ht) in H; discriminate H|].
    destruct (opt_ingest o) eqn:Hi;
      [destruct (main_ingest o cat st Ht Hi) as [e He]; rewrite He in H; discriminate H|].
    destruct (opt_build o) eqn:Hb;
      [rewrite (main_build o cat st Ht Hi Hb) in H; discriminate H|].
    rewrite (main_quiet o cat st Ht Hi Hb) in H.
    assert (Hlisted :
      forall st',
        st' = with_stdout st
                (stdout st ++
                 map (fun d => PrintListed (d_driveid d) (d_drivename d))
                     (sorted (fun y x => String.ltb (d_drivename y) (d_drivename x))
                             (drives st))) ->
        exists listed,
          st' = with_stdout st
                  (stdout st ++
                   map (fun d => PrintListed (d_driveid d) (d_drivename d)) listed) /\
          Permutation listed (drives st) /\ StronglySorted name_le listed).
    { intros st' ->. eexists. split; [reflexivity|].
      split; [apply sorted_perm | apply drives_by_name]. }
    destruct (opt_list o).
    + destruct (has_name "drives" (tables cat)) eqn:Hd; [| discriminate H].
      rewrite list_drives_run in H. cbn [and_then snd] in H.
      destruct (opt_report o) as [d|].
      * destruct (d =? 0) eqn:E; [| discriminate H].
        apply Z.eqb_eq in E. subst d. cbn [and_then] in H. inversion H; subst.
        repeat split; auto; try discriminate.
      * cbn [and_then] in H. inversion H; subst.
        repeat split; auto; try discriminate.
    + destruct (opt_report o) as [d|].
      * destruct (d =? 0) eqn:E; [| discriminate H].
        apply Z.eqb_eq in E. subst d. cbn [and_then] in H. inversion H; subst.
        repeat split; auto; discriminate.
      * cbn [and_then] in H. inversion H; subst. repeat split; auto; discriminate.
  - intros b. reflexivity.
  - vm_compute. reflexivity.
Qed.
